(** * AdaptiveRobot: the rotary velocity estimator and the component lifecycle

    A shallow embedding of
      - [adaptive_robot/hardware/adaptive_dc_encoder.py] (module [Encoder]):
        Python floats are IEEE 754 binary64 values, embedded as Rocq's
        primitive [float] with the same operations and comparisons;
      - [adaptive_robot/adaptive_component.py] (module [Component]):
        Python objects live in a store and are named by references, method
        calls on collaborators are recorded in a call log. *)

From Stdlib Require Import Floats ZArith Zpower.
From stdpp Require Import gmap strings list.

#[local] Set Warnings "-inexact-float".

(** ** The duty-cycle encoder wrapper *)

Module Encoder.

Local Open Scope float_scope.

(** [math.pi], the binary64 value nearest to π. *)
Definition pi : float := 0x1.921fb54442d18p+1.

(** The object's own attributes; the inherited [DutyCycleEncoder] is the
    hardware and enters each method as the reading [self.get()] returns. *)
Record AdaptiveDCEncoder : Set := {
  prev_time : float;
  prev_angle : float
}.

(** Modelled from the spec: [rotations_to_radians] of
    [adaptive_robot/utils/math_utils.py], which is not among the sources:
    "angle = r * 2π (or r * 2π / g when a gear ratio is supplied)".  [None]
    is the call that leaves the gear ratio out. *)
Definition rotations_to_radians_spec (rotations : float) (gear_ratio : option float) : float :=
  match gear_ratio with
  | None => rotations * (2 * pi)
  | Some g => rotations * (2 * pi) / g
  end.

Section WithConversion.

(** The sources call [rotations_to_radians] with one or with two arguments;
    the methods below are written over any such function. *)
Variable rotations_to_radians : float -> option float -> float.

(** [get_position]: [rotations] is the value of [self.get()]. *)
Definition get_position (rotations : float) (gear_ratio : option float) : float :=
  match gear_ratio with
  | None => rotations_to_radians rotations None
  | Some g => rotations_to_radians rotations (Some g)
  end.

(** [__init__]: [now] is [Timer.getFPGATimestamp()], [rotations] the first
    reading. *)
Definition __init__ (now rotations : float) : AdaptiveDCEncoder :=
  {| prev_time := now; prev_angle := get_position rotations None |}.

(** The [# Unwrap] statement of [get_velocity]. *)
Definition unwrap (delta : float) : float :=
  if pi <? delta then delta - 2 * pi
  else if delta <? - pi then delta + 2 * pi
  else delta.

(** [get_velocity]: returns the velocity and the object after the call. *)
Definition get_velocity (now rotations : float) (self : AdaptiveDCEncoder)
  : float * AdaptiveDCEncoder :=
  let angle := get_position rotations None in
  let dt := now - prev_time self in
  if dt <=? 0 then (0, self)
  else
    let delta := angle - prev_angle self in
    let delta := unwrap delta in
    (delta / dt, {| prev_time := now; prev_angle := angle |}).

(** Successive calls of [get_velocity], one per sample (timestamp and
    reading): the velocities returned and the object after the last call. *)
Fixpoint sample_all (samples : list (float * float)) (self : AdaptiveDCEncoder)
  : list float * AdaptiveDCEncoder :=
  match samples with
  | [] => ([], self)
  | (now, rotations) :: rest =>
      let '(v, self') := get_velocity now rotations self in
      let '(vs, last) := sample_all rest self' in
      (v :: vs, last)
  end.

End WithConversion.

End Encoder.

(** ** The component base class *)

Module Component.

(** Objects are named by references: the position of the object in the
    store of its kind. *)
Abbreviation ref := nat (only parsing).

(** [TunableType] (and the telemetry's [primitive_type]): boolean, integer,
    float or string. *)
Inductive TunableType : Set :=
| VBool (b : bool)
| VInt (n : Z)
| VFloat (x : float)
| VStr (s : string).

(** Modelled from the spec: the attributes of a [TunableValue]
    ([adaptive_robot/tunable/tunable_value.py] is not among the sources): a
    key, a default and the value last resolved. *)
Record TunableValue : Set := {
  tv_key : string;
  tv_default : TunableType;
  tv_value : TunableType
}.

(** Modelled from the spec: the attributes of a [TunablePIDController]
    ([adaptive_robot/tunable/tunable_pid_controller.py] is not among the
    sources): three tunable gains, a period and the coefficient snapshot. *)
Record TunablePIDController : Set := {
  kp : ref;
  ki : ref;
  kd : ref;
  period : float;
  snapshot : TunableType * TunableType * TunableType
}.

(** The attributes [AdaptiveComponent.__init__] sets. *)
Record AdaptiveComponent : Set := {
  _robot : ref;
  _tunables : list ref;
  _tunable_pids : list ref
}.

(** An instance of a component class: its class, and its attributes once
    [__init__] has set them. *)
Record object : Set := {
  ob_class : string;
  ob_attrs : option AdaptiveComponent
}.

(** Modelled from the spec: the owning registry, [AdaptiveRobot]
    ([adaptive_robot/adaptive_robot.py] is not among the sources): the
    components registered so far, in order, and what its telemetry publisher
    was given. *)
Record AdaptiveRobot : Type := {
  components : list ref;
  telemetry_publisher : gmap string TunableType
}.

Record world : Type := {
  tunable_values : list TunableValue;
  pid_controllers : list TunablePIDController;
  objects : list object;
  robots : list AdaptiveRobot;
  network_tables : gmap string TunableType
}.

Definition set_tunable_values (f : list TunableValue -> list TunableValue) (w : world) : world :=
  {| tunable_values := f (tunable_values w);
     pid_controllers := pid_controllers w;
     objects := objects w;
     robots := robots w;
     network_tables := network_tables w |}.

Definition set_pid_controllers (f : list TunablePIDController -> list TunablePIDController) (w : world) : world :=
  {| tunable_values := tunable_values w;
     pid_controllers := f (pid_controllers w);
     objects := objects w;
     robots := robots w;
     network_tables := network_tables w |}.

Definition set_objects (f : list object -> list object) (w : world) : world :=
  {| tunable_values := tunable_values w;
     pid_controllers := pid_controllers w;
     objects := f (objects w);
     robots := robots w;
     network_tables := network_tables w |}.

Definition set_robots (f : list AdaptiveRobot -> list AdaptiveRobot) (w : world) : world :=
  {| tunable_values := tunable_values w;
     pid_controllers := pid_controllers w;
     objects := objects w;
     robots := f (robots w);
     network_tables := network_tables w |}.

(** The calls the code of [adaptive_component.py] issues to its
    collaborators, and the calls the scheduler issues to a component. *)
Inductive call : Set :=
| CallUpdate (t : ref)
| CallUpdateFromTunables (p : ref)
| CallAddComponent (robot self : ref)
| CallPutValue (robot : ref) (directory : string) (v : TunableType)
| CallMethod (self : ref) (name : string).

(** A machine state: the objects, and the log of the calls made so far. *)
Record machine : Type := {
  state : world;
  calls : list call
}.

Inductive exn : Set :=
| ConfigurationError
| TypeError
| AttributeError
| NameError.

(** A method either returns or raises; a raise keeps the effects made
    before it. *)
Inductive outcome (A : Type) : Type :=
| Return (a : A) (m : machine)
| Raise (e : exn) (m : machine).
Arguments Return {A} a m.
Arguments Raise {A} e m.

Definition M (A : Type) : Type := machine -> outcome A.

Definition ret {A} (a : A) : M A := fun m => Return a m.

Definition bind {A B} (c : M A) (k : A -> M B) : M B :=
  fun m => match c m with
           | Return a m' => k a m'
           | Raise e m' => Raise e m'
           end.

Definition raise {A} (e : exn) : M A := fun m => Raise e m.

Notation "'do' x <- c ; k" := (bind c (fun x => k))
  (at level 10, x name, c at level 100, k at level 200).
Notation "c ;; k" := (bind c (fun _ => k))
  (at level 100, k at level 200, right associativity).

Definition log (c : call) : M unit :=
  fun m => Return tt {| state := state m; calls := calls m ++ [c] |}.

Definition modify (f : world -> world) : M unit :=
  fun m => Return tt {| state := f (state m); calls := calls m |}.

Definition gets {A} (f : world -> A) : M A :=
  fun m => Return (f (state m)) m.

(** [for x in l: f(x)]. *)
Fixpoint for_each {A} (l : list A) (f : A -> M unit) : M unit :=
  match l with
  | [] => ret tt
  | x :: l' => f x ;; for_each l' f
  end.

Definition machine_of {A} (o : outcome A) : machine :=
  match o with
  | Return _ m => m
  | Raise _ m => m
  end.

(** *** The collaborators *)

(** Modelled from the spec: [TunableValue(key, default)]
    ([tunable_value.py] is not among the sources): "stores key and default;
    resolved value initialized to default. Fails with ConfigurationError if
    key is empty"; the check for duplicate keys, which the spec leaves
    optional, is not made. *)
Definition TunableValue_new (directory : string) (dflt : TunableType) : M ref :=
  if bool_decide (directory = EmptyString) then raise ConfigurationError
  else
    do t <- gets (fun w => length (tunable_values w));
    modify (set_tunable_values
              (fun h => h ++ [{| tv_key := directory; tv_default := dflt; tv_value := dflt |}])) ;;
    ret t.

(** The four kinds of tunable values. *)
Definition same_type (a b : TunableType) : bool :=
  match a, b with
  | VBool _, VBool _ | VInt _, VInt _ | VFloat _, VFloat _ | VStr _, VStr _ => true
  | _, _ => false
  end.

(** Modelled from the spec: [TunableValue.update()]: "reads the current
    value for key from the external store; if absent, resolved value reverts
    to default; if present, resolved value is replaced", under the invariant
    "type of resolved value never changes after construction" ("rejecting type
    changes"): an entry of another type than the default is rejected and the
    value stays what it was. *)
Definition resolve (nt : gmap string TunableType) (t : TunableValue) : TunableValue :=
  {| tv_key := tv_key t; tv_default := tv_default t;
     tv_value := match nt !! tv_key t with
                 | Some v => if same_type v (tv_default t) then v else tv_value t
                 | None => tv_default t
                 end |}.

Definition TunableValue_update (t : ref) : M unit :=
  modify (fun w => set_tunable_values (alter (resolve (network_tables w)) t) w).

Definition TunableValue_get (w : world) (t : ref) : option TunableType :=
  tv_value <$> tunable_values w !! t.

(** Modelled from the spec: [TunablePIDController(kp, ki, kd, period)]
    ([tunable_pid_controller.py] is not among the sources): "wraps three
    pre-built TunableValue<float> instances and a period. Fails with
    ConfigurationError if period ≤ 0 or if any default gain is negative". *)
Definition negative_default (w : world) (t : ref) : bool :=
  match tv_default <$> tunable_values w !! t with
  | Some (VFloat x) => PrimFloat.ltb x 0
  | Some (VInt n) => (n <? 0)%Z
  | _ => false
  end.

Definition TunablePIDController_new (p i d : ref) (per : float) : M ref :=
  do w <- gets id;
  if PrimFloat.leb per 0
     || negative_default w p || negative_default w i || negative_default w d
  then raise ConfigurationError
  else
    let initial := (default (VFloat 0) (TunableValue_get w p),
                    default (VFloat 0) (TunableValue_get w i),
                    default (VFloat 0) (TunableValue_get w d)) in
    do c <- gets (fun w => length (pid_controllers w));
    modify (set_pid_controllers
              (fun h => h ++ [{| kp := p; ki := i; kd := d; period := per;
                                 snapshot := initial |}])) ;;
    ret c.

(** Modelled from the spec: [TunablePIDController.update_from_tunables()]:
    "calls update() on kp, ki, kd in that fixed order, then atomically
    replaces the internal coefficient snapshot with the three freshly
    resolved values". *)
Definition refresh (w : world) (c : TunablePIDController) : TunablePIDController :=
  {| kp := kp c; ki := ki c; kd := kd c; period := period c;
     snapshot := (default (snapshot c).1.1 (TunableValue_get w (kp c)),
                  default (snapshot c).1.2 (TunableValue_get w (ki c)),
                  default (snapshot c).2 (TunableValue_get w (kd c))) |}.

Definition TunablePIDController_update_from_tunables (p : ref) : M unit :=
  do c <- gets (fun w => pid_controllers w !! p);
  match c with
  | None => ret tt
  | Some c =>
      TunableValue_update (kp c) ;;
      TunableValue_update (ki c) ;;
      TunableValue_update (kd c) ;;
      modify (fun w => set_pid_controllers (alter (refresh w) p) w)
  end.

(** Modelled from the spec: [AdaptiveRobot.add_component]
    ([adaptive_robot.py] is not among the sources): the registry records the
    component, after those it already has.  A [robot] that is no registry
    (such as [None]) has no such method. *)
Definition add_to (self : ref) (r : AdaptiveRobot) : AdaptiveRobot :=
  {| components := components r ++ [self];
     telemetry_publisher := telemetry_publisher r |}.

Definition AdaptiveRobot_add_component (robot self : ref) : M unit :=
  do r <- gets (fun w => robots w !! robot);
  match r with
  | None => raise AttributeError
  | Some _ => modify (set_robots (alter (add_to self) robot))
  end.

(** Modelled from the spec: the telemetry sink's [put_value(key, value)]. *)
Definition put (directory : string) (v : TunableType) (r : AdaptiveRobot) : AdaptiveRobot :=
  {| components := components r;
     telemetry_publisher := <[directory := v]> (telemetry_publisher r) |}.

Definition telemetry_put_value (robot : ref) (directory : string) (v : TunableType) : M unit :=
  do r <- gets (fun w => robots w !! robot);
  match r with
  | None => raise AttributeError
  | Some _ => modify (set_robots (alter (put directory v) robot))
  end.

(** *** [class AdaptiveComponent(ABC)] *)

(** Reading an attribute of [self]: an object whose [__init__] has not
    run has none. *)
Definition attrs (self : ref) : M AdaptiveComponent :=
  do o <- gets (fun w => objects w !! self);
  match o with
  | Some {| ob_attrs := Some c |} => ret c
  | _ => raise AttributeError
  end.

Definition set_attrs (c : AdaptiveComponent) (o : object) : object :=
  {| ob_class := ob_class o; ob_attrs := Some c |}.

(** [__init__(self, robot)]. *)
Definition __init__ (self robot : ref) : M unit :=
  log (CallAddComponent robot self) ;;
  AdaptiveRobot_add_component robot self ;;
  modify (set_objects
            (alter (set_attrs {| _robot := robot; _tunables := [];
                                 _tunable_pids := [] |}) self)).

(** [update_tunable_constants(self)]. *)
Definition update_tunable_constants (self : ref) : M unit :=
  do c <- attrs self;
  for_each (_tunables c) (fun tunable =>
    log (CallUpdate tunable) ;; TunableValue_update tunable).

(** [update_tunable_pids(self)]. *)
Definition update_tunable_pids (self : ref) : M unit :=
  do c <- attrs self;
  for_each (_tunable_pids c) (fun tunable_pid =>
    log (CallUpdateFromTunables tunable_pid) ;;
    TunablePIDController_update_from_tunables tunable_pid).

(** [tunable(self, directory, default)]. *)
Definition tunable (self : ref) (directory : string) (dflt : TunableType) : M ref :=
  do value <- TunableValue_new directory dflt;
  do c <- attrs self;
  modify (set_objects
            (alter (set_attrs {| _robot := _robot c;
                                 _tunables := _tunables c ++ [value];
                                 _tunable_pids := _tunable_pids c |}) self)) ;;
  ret value.

(** [tunablePID(self, kp, ki, kd, directory="Tunables/PIDController",
    period=0.02)]; [None] is an argument left out. *)
Definition tunablePID (self : ref) (kp ki kd : float)
    (directory : option string) (period : option float) : M ref :=
  let directory := default "Tunables/PIDController"%string directory in
  let period := default 0.02%float period in
  do tkp <- TunableValue_new (directory +:+ "/kp") (VFloat kp);
  do tki <- TunableValue_new (directory +:+ "/ki") (VFloat ki);
  do tkd <- TunableValue_new (directory +:+ "/kd") (VFloat kd);
  do tunablePID <- TunablePIDController_new tkp tki tkd period;
  do c <- attrs self;
  modify (set_objects
            (alter (set_attrs {| _robot := _robot c;
                                 _tunables := _tunables c;
                                 _tunable_pids := _tunable_pids c ++ [tunablePID] |}) self)) ;;
  ret tunablePID.

(** [publish_value(self, directory, value)]. *)
Definition publish_value (self : ref) (directory : string) (v : TunableType) : M unit :=
  do c <- attrs self;
  log (CallPutValue (_robot c) directory v) ;;
  telemetry_put_value (_robot c) directory v.

(** *** Subclasses and [ABC] *)

(** A method of a class body: whether [@abstractmethod] marks it, and what
    it does to the objects when called on [self]. *)
Record method : Type := {
  __isabstractmethod__ : bool;
  body : ref -> world -> world
}.

(** The two methods of [AdaptiveComponent] a subclass may define:
    [publish_telemetry], whose body is [...], and the abstract [execute]. *)
Definition AdaptiveComponent_dict : gmap string method :=
  {[ "publish_telemetry"%string :=
       {| __isabstractmethod__ := false; body := fun _ w => w |};
     "execute"%string :=
       {| __isabstractmethod__ := true; body := fun _ w => w |} ]}.

(** Attribute lookup on a direct subclass with class body [ns]: its own
    definitions first, then those of [AdaptiveComponent]. *)
Definition getattr (ns : gmap string method) (name : string) : option method :=
  match ns !! name with
  | Some m => Some m
  | None => AdaptiveComponent_dict !! name
  end.

Definition own_abstracts (ns : gmap string method) : gset string :=
  dom (filter (fun kv => __isabstractmethod__ kv.2 = true) ns).

(** [ABCMeta.__new__]: the names the class body marks abstract, and the
    abstract names of the base that still resolve to an abstract method. *)
Definition __abstractmethods__ (ns : gmap string method) : gset string :=
  own_abstracts ns ∪
  filter (fun name => __isabstractmethod__ <$> getattr ns name = Some true)
         (own_abstracts AdaptiveComponent_dict).

Section WithClasses.

(** The subclasses of [AdaptiveComponent] that the program defines, by
    name; each inherits [__init__]. *)
Variable classes : gmap string (gmap string method).

(** [cls(robot)]: [object.__new__] refuses a class with abstract methods,
    otherwise the new object is initialised by [__init__]. *)
Definition instantiate (cls : string) (robot : ref) : M ref :=
  match classes !! cls with
  | None => raise NameError
  | Some ns =>
      if bool_decide (__abstractmethods__ ns = ∅) then
        do self <- gets (fun w => length (objects w));
        modify (set_objects (fun h => h ++ [{| ob_class := cls; ob_attrs := None |}])) ;;
        __init__ self robot ;;
        ret self
      else raise TypeError
  end.

(** [self.name()] for a method a subclass may define. *)
Definition call_method (self : ref) (name : string) : M unit :=
  do o <- gets (fun w => objects w !! self);
  match o with
  | None => raise AttributeError
  | Some o =>
      match classes !! ob_class o with
      | None => raise NameError
      | Some ns =>
          match getattr ns name with
          | Some m => modify (body m self)
          | None => raise AttributeError
          end
      end
  end.

Definition publish_telemetry (self : ref) : M unit :=
  call_method self "publish_telemetry".

Definition execute (self : ref) : M unit :=
  call_method self "execute".

(** Modelled from the spec: the scheduler's pass over one component
    ([adaptive_robot.py] is not among the sources): "each period invokes, per
    component, the four lifecycle steps in the fixed order":
    refresh-all-tunable-constants, refresh-all-tunable-PID-coefficients,
    publish-telemetry, execute. *)
Definition run_component (self : ref) : M unit :=
  log (CallMethod self "update_tunable_constants") ;;
  update_tunable_constants self ;;
  log (CallMethod self "update_tunable_pids") ;;
  update_tunable_pids self ;;
  log (CallMethod self "publish_telemetry") ;;
  publish_telemetry self ;;
  log (CallMethod self "execute") ;;
  execute self.

(** Modelled from the spec: one cycle of the scheduler, over the components
    registered with [robot] when the cycle starts. *)
Definition cycle (robot : ref) : M unit :=
  do r <- gets (fun w => robots w !! robot);
  match r with
  | None => raise AttributeError
  | Some r => for_each (components r) run_component
  end.

End WithClasses.

(** *** The operations of the base class on an initialised component *)

Inductive operation : Set :=
| OpUpdateTunableConstants
| OpUpdateTunablePids
| OpTunable (directory : string) (dflt : TunableType)
| OpTunablePID (kp ki kd : float) (directory : option string) (period : option float)
| OpPublishValue (directory : string) (v : TunableType)
| OpPublishTelemetry
| OpExecute.

(** The bodies of [publish_telemetry] and [execute] in the base class are
    [...]. *)
Definition perform (self : ref) (op : operation) : M unit :=
  match op with
  | OpUpdateTunableConstants => update_tunable_constants self
  | OpUpdateTunablePids => update_tunable_pids self
  | OpTunable directory dflt => tunable self directory dflt ;; ret tt
  | OpTunablePID kp ki kd directory period =>
      tunablePID self kp ki kd directory period ;; ret tt
  | OpPublishValue directory v => publish_value self directory v
  | OpPublishTelemetry => ret tt
  | OpExecute => ret tt
  end.

(** A history of operations, each on some component; the caller goes on
    after an operation that raised. *)
Fixpoint perform_all (ops : list (ref * operation)) (m : machine) : machine :=
  match ops with
  | [] => m
  | (self, op) :: ops' => perform_all ops' (machine_of (perform self op m))
  end.

Definition attrs_of (m : machine) (self : ref) : option AdaptiveComponent :=
  objects (state m) !! self ≫= ob_attrs.

End Component.

(** ** Predicates on specified binary64 numbers *)

Module Binary64.

(** A number that is not a NaN and has sign [s]. *)
Definition signed (s : bool) (z : spec_float) : Prop :=
  match z with
  | S754_zero s' | S754_infinity s' | S754_finite s' _ _ => s' = s
  | S754_nan => False
  end.

(** Zero or a finite non-zero number. *)
Definition SFfinite (z : spec_float) : bool :=
  match z with
  | S754_zero _ | S754_finite _ _ _ => true
  | _ => false
  end.

End Binary64.

(** ** What the statements on the component are about *)

Module Statements.

Import Component.

(** The attributes of a component when [__init__] returns. *)
Definition fresh_attrs (robot : ref) : AdaptiveComponent :=
  {| _robot := robot; _tunables := []; _tunable_pids := [] |}.

(** The machine [__init__] leaves when [robot] is a registry. *)
Definition after_init (self robot : ref) (m : machine) : machine :=
  {| state := set_objects (alter (set_attrs (fresh_attrs robot)) self)
                (set_robots (alter (add_to self) robot) (state m));
     calls := calls m ++ [CallAddComponent robot self] |}.

(** The tunable [TunableValue(directory, default)] creates. *)
Definition new_tunable (directory : string) (dflt : TunableType) : TunableValue :=
  {| tv_key := directory; tv_default := dflt; tv_value := dflt |}.

(** The three gain tunables [tunablePID] creates, appended to a store. *)
Definition with_gains (directory : string) (kp ki kd : float) (h : list TunableValue)
  : list TunableValue :=
  h ++ [new_tunable (directory +:+ "/kp") (VFloat kp);
        new_tunable (directory +:+ "/ki") (VFloat ki);
        new_tunable (directory +:+ "/kd") (VFloat kd)].

(** What is left of [tunablePID] once the three gain tunables exist. *)
Definition register_pid (self : ref) (p : ref) : M ref :=
  do c <- attrs self;
  modify (set_objects
            (alter (set_attrs {| _robot := _robot c;
                                 _tunables := _tunables c;
                                 _tunable_pids := _tunable_pids c ++ [p] |}) self)) ;;
  ret p.

(** The machine [tunablePID] leaves when it returns. *)
Definition after_tunablePID (self : ref) (c : AdaptiveComponent)
    (gp gi gd : float) (dir : string) (per : float) (m : machine) : machine :=
  let n := length (tunable_values (state m)) in
  let w1 := set_tunable_values (with_gains dir gp gi gd) (state m) in
  let w2 := set_pid_controllers
              (fun h => h ++ [{| kp := n; ki := S n; kd := S (S n); period := per;
                                 snapshot := (default (VFloat 0) (TunableValue_get w1 n),
                                              default (VFloat 0) (TunableValue_get w1 (S n)),
                                              default (VFloat 0) (TunableValue_get w1 (S (S n)))) |}])
              w1 in
  {| state := set_objects
       (alter (set_attrs {| _robot := _robot c;
                            _tunables := _tunables c;
                            _tunable_pids := _tunable_pids c
                                             ++ [length (pid_controllers (state m))] |}) self)
       w2;
     calls := calls m |}.

(** Every gain is [>= 0] and the period is [> 0]. *)
Definition valid_gains (gp gi gd per : float) : Prop :=
  PrimFloat.leb 0 gp = true /\ PrimFloat.leb 0 gi = true
  /\ PrimFloat.leb 0 gd = true /\ PrimFloat.ltb 0 per = true.

(** The period is [<= 0] or some gain is [< 0]. *)
Definition invalid_gains (gp gi gd per : float) : Prop :=
  PrimFloat.leb per 0 = true \/ PrimFloat.ltb gp 0 = true
  \/ PrimFloat.ltb gi 0 = true \/ PrimFloat.ltb gd 0 = true.

(** The gain tunables of a controller hold the given defaults. *)
Definition holds_gains (w : world) (p i d : ref) (gp gi gd : float) : Prop :=
  tv_default <$> tunable_values w !! p = Some (VFloat gp)
  /\ tv_default <$> tunable_values w !! i = Some (VFloat gi)
  /\ tv_default <$> tunable_values w !! d = Some (VFloat gd).

(** The stores of tunables and the registries change, the component
    objects do not. *)
Definition same_objects (m m' : machine) : Prop :=
  objects (state m') = objects (state m).

(** Every initialised component stays initialised, keeps its registry, and
    its two collections only grow at the end. *)
Definition grows (m m' : machine) : Prop :=
  forall self c, attrs_of m self = Some c ->
    exists c', attrs_of m' self = Some c'
      /\ _robot c' = _robot c
      /\ _tunables c `prefix_of` _tunables c'
      /\ _tunable_pids c `prefix_of` _tunable_pids c'.

(** A computation keeps a relation between the machine it starts from and
    the machine it leaves, whether it returns or raises. *)
Definition keeps (R : machine -> machine -> Prop) {A} (c : M A) : Prop :=
  forall m, R m (machine_of (c m)).

(** A collaborator's method that returns, logs nothing and leaves the
    component objects alone. *)
Definition quiet (c : M unit) : Prop :=
  forall m, exists m',
    c m = Return tt m' /\ calls m' = calls m
    /\ objects (state m') = objects (state m).

(** The calls of one pass over a component with tunables [ts] and
    controllers [ps]. *)
Definition pass (self : ref) (ts ps : list ref) : list call :=
  [CallMethod self "update_tunable_constants"]
  ++ (CallUpdate <$> ts)
  ++ [CallMethod self "update_tunable_pids"]
  ++ (CallUpdateFromTunables <$> ps)
  ++ [CallMethod self "publish_telemetry"; CallMethod self "execute"].

(** An initialised instance of a known class. *)
Definition alive (classes : gmap string (gmap string method)) (w : world) (self : ref) : Prop :=
  exists cls c ns,
    objects w !! self = Some {| ob_class := cls; ob_attrs := Some c |}
    /\ classes !! cls = Some ns.

(** What the cycle asks of the subclasses' methods: they delete no
    component. *)
Definition hooks_keep_alive (classes : gmap string (gmap string method)) : Prop :=
  forall cls ns name mth,
    classes !! cls = Some ns -> getattr ns name = Some mth ->
    forall self w other, alive classes w other -> alive classes (body mth self w) other.

(** *** Series of calls *)

(** [self.tunable(directory, default)] for each pair in turn, as the
    constructor of a subclass makes them; the tunables returned. *)
Fixpoint tunable_each (self : ref) (l : list (string * TunableType)) : M (list ref) :=
  match l with
  | [] => ret []
  | (directory, dflt) :: rest =>
      do t <- tunable self directory dflt;
      do ts <- tunable_each self rest;
      ret (t :: ts)
  end.

(** [cls(robot)] for each class in turn; the instances returned. *)
Fixpoint instantiate_each (classes : gmap string (gmap string method))
    (l : list string) (robot : ref) : M (list ref) :=
  match l with
  | [] => ret []
  | cls :: rest =>
      do self <- instantiate classes cls robot;
      do others <- instantiate_each classes rest robot;
      ret (self :: others)
  end.

(** The store of tunables after [update()] on each of [ts] in turn. *)
Definition refreshed (nt : gmap string TunableType) (ts : list ref)
    (h : list TunableValue) : list TunableValue :=
  foldl (fun h t => alter (resolve nt) t h) h ts.

(** Every tunable the component owns exists. *)
Definition owns_existing (m : machine) (c : AdaptiveComponent) : Prop :=
  forall t, t ∈ _tunables c -> t < length (tunable_values (state m)).

(** Every class of [l] is defined and has no abstract method left. *)
Definition concrete_classes (classes : gmap string (gmap string method))
    (l : list string) : Prop :=
  Forall (fun cls => exists ns, classes !! cls = Some ns /\ __abstractmethods__ ns = ∅) l.

(** The initialised instance [cls(robot)] leaves in the store. *)
Definition instance_of (robot : ref) (cls : string) : object :=
  {| ob_class := cls; ob_attrs := Some (fresh_attrs robot) |}.

(** The registries list the same components. *)
Definition same_registrations (m m' : machine) : Prop :=
  components <$> robots (state m') = components <$> robots (state m).

(** *** The state a pass leaves *)

(** The objects after [update()] on each of the tunables [ts] in turn. *)
Definition constants_refreshed (ts : list ref) (w : world) : world :=
  set_tunable_values (refreshed (network_tables w) ts) w.

(** The objects after [update_from_tunables()] on the controller [p]: its
    three gains updated in turn, then its snapshot replaced. *)
Definition update_from_tunables_state (p : ref) (w : world) : world :=
  match pid_controllers w !! p with
  | None => w
  | Some c =>
      let w1 := set_tunable_values (alter (resolve (network_tables w)) (kp c)) w in
      let w2 := set_tunable_values (alter (resolve (network_tables w1)) (ki c)) w1 in
      let w3 := set_tunable_values (alter (resolve (network_tables w2)) (kd c)) w2 in
      set_pid_controllers (alter (refresh w3) p) w3
  end.

(** The objects after [update_from_tunables()] on each of the controllers
    [ps] in turn. *)
Definition pids_refreshed (ps : list ref) (w : world) : world :=
  foldl (fun w p => update_from_tunables_state p w) w ps.

(** The objects after the two update steps of a component with attributes
    [c]. *)
Definition after_updates (c : AdaptiveComponent) (w : world) : world :=
  pids_refreshed (_tunable_pids c) (constants_refreshed (_tunables c) w).

(** The method [self.name] resolves to, by the class of [self]. *)
Definition hook_of (classes : gmap string (gmap string method)) (w : world)
    (self : ref) (name : string) : option method :=
  match objects w !! self with
  | None => None
  | Some o =>
      match classes !! ob_class o with
      | None => None
      | Some ns => getattr ns name
      end
  end.

(** One completed pass of the scheduler per component of the list, each
    starting from the machine the pass before it left. *)
Inductive passes_from (classes : gmap string (gmap string method))
  : list ref -> machine -> machine -> Prop :=
| passes_nil m : passes_from classes [] m m
| passes_cons self l m m1 m2 :
    run_component classes self m = Return tt m1 ->
    passes_from classes l m1 m2 ->
    passes_from classes (self :: l) m m2.

(** *** The life of a component *)

(** The test of the controller's constructor: the period is [<= 0] or some
    gain is [< 0]. *)
Definition refused_gains (gp gi gd per : float) : bool :=
  PrimFloat.leb per 0 || PrimFloat.ltb gp 0 || PrimFloat.ltb gi 0
  || PrimFloat.ltb gd 0.

(** What happens while components live: an operation of the class on some
    component, or the construction of a further component. *)
Inductive step : Type :=
| StepOperation (self : ref) (op : operation)
| StepConstruct (cls : string) (robot : ref).

Definition run_step (classes : gmap string (gmap string method)) (s : step) : M unit :=
  match s with
  | StepOperation self op => perform self op
  | StepConstruct cls robot => instantiate classes cls robot ;; ret tt
  end.

(** A history of steps; the caller goes on after a step that raised. *)
Fixpoint run_steps (classes : gmap string (gmap string method))
    (l : list step) (m : machine) : machine :=
  match l with
  | [] => m
  | s :: l' => run_steps classes l' (machine_of (run_step classes s m))
  end.

(** *** Sample machines and classes *)

(** A machine with one registry and nothing else. *)
Definition one_robot : machine :=
  {| state := {| tunable_values := [];
                 pid_controllers := [];
                 objects := [];
                 robots := [{| components := []; telemetry_publisher := ∅ |}];
                 network_tables := ∅ |};
     calls := [] |}.

(** A machine with two registries and one blank object. *)
Definition two_robots : machine :=
  {| state := {| tunable_values := [];
                 pid_controllers := [];
                 objects := [{| ob_class := "Drive"; ob_attrs := None |}];
                 robots := [{| components := []; telemetry_publisher := ∅ |};
                            {| components := []; telemetry_publisher := ∅ |}];
                 network_tables := ∅ |};
     calls := [] |}.

(** A machine with one registry and one initialised component of a class
    [Drive]: what [Drive(robot)] leaves on the machine that has the registry
    only. *)
Definition one_component : machine :=
  {| state := {| tunable_values := [];
                 pid_controllers := [];
                 objects := [{| ob_class := "Drive";
                                ob_attrs := Some {| _robot := 0; _tunables := [];
                                                    _tunable_pids := [] |} |}];
                 robots := [{| components := [0]; telemetry_publisher := ∅ |}];
                 network_tables := ∅ |};
     calls := [CallAddComponent 0 0] |}.

(** [one_component] after its component has created two tunables and a
    controller. *)
Definition equipped : machine :=
  perform_all [(0, OpTunable "Drive/speed" (VFloat 5));
               (0, OpTunablePID 1.5 0 0.25 (Some "Drive/pid"%string) None);
               (0, OpTunable "Drive/enabled" (VBool true))] one_component.

(** The store declares a speed of [7.5]; the component of [equipped] owns
    the tunables [0] (speed) and [4]. *)
Definition equipped_with_store : machine :=
  {| state := {| tunable_values := tunable_values (state equipped);
                 pid_controllers := pid_controllers (state equipped);
                 objects := objects (state equipped);
                 robots := robots (state equipped);
                 network_tables := {[ "Drive/speed"%string := VFloat 7.5 ]} |};
     calls := [] |}.

(** Two subclasses: [Drive] defines [execute], which sets a flag in the
    network tables, [Idle] defines [publish_telemetry] only. *)
Definition demo_classes : gmap string (gmap string method) :=
  {[ "Drive"%string :=
       {[ "execute"%string :=
            {| __isabstractmethod__ := false;
               body := fun _ w =>
                 {| tunable_values := tunable_values w;
                    pid_controllers := pid_controllers w;
                    objects := objects w;
                    robots := robots w;
                    network_tables := <["ran"%string := VBool true]> (network_tables w) |} |} ]};
     "Idle"%string :=
       {[ "publish_telemetry"%string :=
            {| __isabstractmethod__ := false; body := fun _ w => w |} ]} ]}.

End Statements.

(** ** Facts on binary64 comparisons

    Python's [<], [<=] on floats are the IEEE comparisons: every comparison
    with a NaN is false.  The facts below are read off the specification of
    the primitive operations ([ltb_spec], [leb_spec]). *)

Module FloatOrder.

Import Binary64.

Lemma SFcompare_antisym (x y : spec_float) :
  SFcompare y x = option_map CompOpp (SFcompare x y).
Proof.
  destruct x as [sx|sx| |sx mx ex], y as [sy|sy| |sy my ey]; simpl;
    try reflexivity; try (destruct sx; reflexivity);
    try (destruct sy; reflexivity);
    try (destruct sx, sy; reflexivity).
  destruct sx, sy; simpl; try reflexivity;
    rewrite (Z.compare_antisym ey ex);
    destruct (ey ?= ex)%Z; simpl; try reflexivity;
    rewrite (ZC4 my mx);
    destruct (PosDef.Pos.compare_cont Eq mx my); reflexivity.
Qed.

(** [a <= b] excludes [b < a]. *)
Lemma leb_not_gtb (a b : float) :
  PrimFloat.leb a b = true -> PrimFloat.ltb b a = false.
Proof.
  rewrite FloatAxioms.leb_spec, FloatAxioms.ltb_spec. unfold SFleb, SFltb.
  rewrite (SFcompare_antisym (Prim2SF a) (Prim2SF b)).
  destruct (SFcompare (Prim2SF a) (Prim2SF b)) as [[]|]; simpl; congruence.
Qed.

(** [a < b] excludes [b <= a]. *)
Lemma ltb_not_geb (a b : float) :
  PrimFloat.ltb a b = true -> PrimFloat.leb b a = false.
Proof.
  rewrite FloatAxioms.leb_spec, FloatAxioms.ltb_spec. unfold SFleb, SFltb.
  rewrite (SFcompare_antisym (Prim2SF a) (Prim2SF b)).
  destruct (SFcompare (Prim2SF a) (Prim2SF b)) as [[]|]; simpl; congruence.
Qed.

(** When neither operand is a NaN the order is total: not [a <= b] gives
    [b < a]. *)
Lemma not_leb_gtb (a b : float) :
  PrimFloat.is_nan a = false -> PrimFloat.is_nan b = false ->
  PrimFloat.leb a b = false -> PrimFloat.ltb b a = true.
Proof.
  unfold PrimFloat.is_nan. intros Ha Hb Hle.
  rewrite FloatAxioms.eqb_spec in Ha, Hb.
  rewrite FloatAxioms.leb_spec in Hle. rewrite FloatAxioms.ltb_spec.
  unfold SFleb, SFltb, SFeqb in *.
  rewrite (SFcompare_antisym (Prim2SF a) (Prim2SF b)).
  destruct (Prim2SF a) as [sa|sa| |sa ma ea], (Prim2SF b) as [sb|sb| |sb mb eb];
    simpl in *; try congruence;
    try (destruct sa; simpl in *; congruence);
    try (destruct sb; simpl in *; congruence);
    try (destruct sa, sb; simpl in *; congruence).
  clear Ha Hb.
  destruct sa, sb; simpl in *; try congruence;
    destruct (ea ?= eb)%Z; simpl in *; try congruence;
    destruct (PosDef.Pos.compare_cont Eq ma mb); simpl in *; congruence.
Qed.

(** *** Subtraction of ordered finite numbers

    For finite [x <= y] the difference [x - y] is never positive: the exact
    difference of the aligned mantissas is at most zero, and rounding keeps
    its sign.  The argument follows the specification of the operations
    ([sub_spec], [Prim2SF_valid]). *)

Section Subtraction.

Local Open Scope Z_scope.

Lemma digits2_pos_bounds (m : positive) :
  2 ^ (Zpos (digits2_pos m) - 1) <= Zpos m < 2 ^ Zpos (digits2_pos m).
Proof.
  induction m as [p IH|p IH|]; simpl digits2_pos.
  - rewrite Pos2Z.inj_succ.
    replace (Z.succ (Zpos (digits2_pos p)) - 1) with (Z.succ (Zpos (digits2_pos p) - 1)) by lia.
    rewrite !Z.pow_succ_r by lia. lia.
  - rewrite Pos2Z.inj_succ.
    replace (Z.succ (Zpos (digits2_pos p)) - 1) with (Z.succ (Zpos (digits2_pos p) - 1)) by lia.
    rewrite !Z.pow_succ_r by lia. lia.
  - simpl. lia.
Qed.

Lemma shl_align_value (m : positive) (e ez : Z) :
  ez <= e -> Zpos (fst (shl_align m e ez)) = Zpos m * 2 ^ (e - ez).
Proof.
  intros Hle. unfold shl_align.
  destruct (ez - e) as [|d|d] eqn:Hd; try lia.
  - replace (e - ez) with 0 by lia. simpl. lia.
  - simpl fst. replace (e - ez) with (Zpos d) by lia.
    change (Pos.iter xO m d) with (shift_pos d m).
    rewrite shift_pos_correct, Z.pow_pos_fold. lia.
Qed.

Lemma shr_1_nonneg mrs : 0 <= shr_m mrs -> 0 <= shr_m (shr_1 mrs).
Proof.
  destruct mrs as [m r s]. destruct m as [|[p|p|]|[p|p|]]; simpl; lia.
Qed.

Lemma iter_shr_1_nonneg p : forall mrs,
  0 <= shr_m mrs -> 0 <= shr_m (SpecFloat.iter_pos shr_1 p mrs).
Proof.
  induction p as [p IH|p IH|]; intros mrs H; simpl.
  - apply IH, IH, shr_1_nonneg, H.
  - apply IH, IH, H.
  - apply shr_1_nonneg, H.
Qed.

Lemma shr_fexp_nonneg m e l :
  0 <= m -> 0 <= shr_m (fst (shr_fexp prec emax m e l)).
Proof.
  intros Hm. unfold shr_fexp, shr.
  assert (H0 : 0 <= shr_m (shr_record_of_loc m l)) by (destruct l as [|[]]; exact Hm).
  destruct (fexp prec emax (Zdigits2 m + e) - e); simpl; auto.
  apply iter_shr_1_nonneg, H0.
Qed.

Lemma round_nearest_even_nonneg mx lx : 0 <= mx -> 0 <= round_nearest_even mx lx.
Proof.
  intros H. destruct lx as [|[]]; simpl; try lia.
  destruct (Z.even mx); lia.
Qed.

Lemma binary_round_aux_signed sx mx ex lx :
  0 <= mx -> signed sx (binary_round_aux prec emax sx mx ex lx).
Proof.
  intros Hm. unfold binary_round_aux.
  pose proof (shr_fexp_nonneg mx ex lx Hm) as H1.
  destruct (shr_fexp prec emax mx ex lx) as [mrs' e']. simpl in H1.
  pose proof (shr_fexp_nonneg _ e' loc_Exact
                (round_nearest_even_nonneg _ (loc_of_shr_record mrs') H1)) as H2.
  destruct (shr_fexp prec emax _ e' loc_Exact) as [mrs'' e'']. simpl in H2.
  destruct (shr_m mrs''); simpl; [reflexivity | | lia].
  destruct (e'' <=? emax - prec); reflexivity.
Qed.

Lemma binary_round_signed sx mx ex :
  signed sx (binary_round prec emax sx mx ex).
Proof.
  unfold binary_round.
  destruct (shl_align mx ex _) as [mz ez].
  apply binary_round_aux_signed. lia.
Qed.

Lemma signed_nonpos z : signed true z -> SFleb z (S754_zero false) = true.
Proof. destruct z; simpl; try intros ->; try reflexivity. intros []. Qed.

Lemma binary_normalize_nonpos m e :
  m <= 0 -> SFleb (binary_normalize prec emax m e false) (S754_zero false) = true.
Proof.
  intros Hm. destruct m as [|p|p]; simpl; [reflexivity | lia |].
  apply signed_nonpos, binary_round_signed.
Qed.

(** What [valid_binary] says of a finite number. *)
Lemma bounded_canonical m e :
  bounded prec emax m e = true ->
  Zpos (digits2_pos m) <= prec /\ emin <= e
  /\ (emin < e -> Zpos (digits2_pos m) = prec).
Proof.
  unfold bounded, canonical_mantissa, fexp. intros H.
  apply andb_prop in H as [H _]. apply Z.eqb_eq in H. lia.
Qed.

(** A canonical number with the larger exponent has the larger magnitude. *)
Lemma canonical_lt mx ex my ey :
  bounded prec emax mx ex = true -> bounded prec emax my ey = true ->
  ex < ey -> Zpos mx < Zpos my * 2 ^ (ey - ex).
Proof.
  intros Hx Hy Hlt.
  destruct (bounded_canonical _ _ Hx) as (Dx & Ex & _).
  destruct (bounded_canonical _ _ Hy) as (_ & _ & Dy).
  specialize (Dy ltac:(lia)).
  pose proof (digits2_pos_bounds mx) as [_ Bx].
  pose proof (digits2_pos_bounds my) as [By _].
  rewrite Dy in By.
  assert (H1 : 2 ^ Zpos (digits2_pos mx) <= 2 ^ prec)
    by (apply Z.pow_le_mono_r; lia).
  assert (H2 : 2 ^ 1 <= 2 ^ (ey - ex)) by (apply Z.pow_le_mono_r; lia).
  assert (H3 : 2 ^ prec = 2 ^ (prec - 1) * 2 ^ 1) by (vm_compute; reflexivity).
  assert (H4 : 0 < 2 ^ (prec - 1)) by (vm_compute; reflexivity).
  nia.
Qed.

Lemma SFsub_nonpos sx mx ex sy my ey :
  bounded prec emax mx ex = true -> bounded prec emax my ey = true ->
  SFleb (S754_finite sx mx ex) (S754_finite sy my ey) = true ->
  cond_Zopp sx (Zpos (fst (shl_align mx ex (Z.min ex ey))))
  - cond_Zopp sy (Zpos (fst (shl_align my ey (Z.min ex ey)))) <= 0.
Proof.
  intros Hx Hy Hle.
  rewrite !shl_align_value by lia.
  assert (Px : 0 < 2 ^ (ex - Z.min ex ey)) by (apply Z.pow_pos_nonneg; lia).
  assert (Py : 0 < 2 ^ (ey - Z.min ex ey)) by (apply Z.pow_pos_nonneg; lia).
  unfold SFleb, SFcompare in Hle.
  destruct sx, sy; simpl; try discriminate; try nia.
  - destruct (ex ?= ey) eqn:Hc; try discriminate.
    + apply Z.compare_eq in Hc. subst ey.
      rewrite Z.min_id, Z.sub_diag, !Z.pow_0_r.
      destruct (PosDef.Pos.compare_cont Eq mx my) eqn:Hm; try discriminate.
      * apply Pos.compare_eq in Hm. lia.
      * change (PosDef.Pos.compare_cont Eq mx my) with (Pos.compare mx my) in Hm.
        apply Pos.compare_gt_iff, Pos2Z.pos_lt_pos in Hm. lia.
    + apply Z.compare_gt_iff in Hc.
      rewrite Z.min_r by lia. rewrite Z.sub_diag, Z.pow_0_r.
      pose proof (canonical_lt my ey mx ex Hy Hx Hc). lia.
  - destruct (ex ?= ey) eqn:Hc; try discriminate.
    + apply Z.compare_eq in Hc. subst ey.
      rewrite Z.min_id, Z.sub_diag, !Z.pow_0_r.
      destruct (PosDef.Pos.compare_cont Eq mx my) eqn:Hm; try discriminate.
      * apply Pos.compare_eq in Hm. lia.
      * change (PosDef.Pos.compare_cont Eq mx my) with (Pos.compare mx my) in Hm.
        apply Pos.compare_lt_iff, Pos2Z.pos_lt_pos in Hm. lia.
    + assert (Hlt : ex < ey) by exact Hc.
      rewrite Z.min_l by lia. rewrite Z.sub_diag, Z.pow_0_r.
      pose proof (canonical_lt mx ex my ey Hx Hy Hlt). lia.
Qed.

Lemma SF64sub_nonpos x y :
  valid_binary x = true -> valid_binary y = true ->
  SFfinite x = true -> SFfinite y = true ->
  SFleb x y = true ->
  SFleb (SF64sub x y) (S754_zero false) = true.
Proof.
  intros Vx Vy Fx Fy Hle. unfold SF64sub, SFsub.
  destruct x as [sx|sx| |sx mx ex], y as [sy|sy| |sy my ey]; try discriminate.
  - destruct sx, sy; reflexivity.
  - unfold SFleb, SFcompare in Hle. destruct sy; [discriminate|reflexivity].
  - exact Hle.
  - apply binary_normalize_nonpos, SFsub_nonpos; assumption.
Qed.

Lemma is_finite_SFfinite (x : float) :
  PrimFloat.is_finite x = true -> SFfinite (Prim2SF x) = true.
Proof.
  unfold PrimFloat.is_finite, PrimFloat.is_nan, PrimFloat.is_infinity.
  rewrite !FloatAxioms.eqb_spec, FloatAxioms.abs_spec.
  change (Prim2SF infinity) with (S754_infinity false).
  destruct (Prim2SF x) as [s|s| |s m e]; simpl; try reflexivity; try discriminate.
  destruct s; discriminate.
Qed.

Lemma sub_nonpos (x y : float) :
  PrimFloat.is_finite x = true -> PrimFloat.is_finite y = true ->
  PrimFloat.leb x y = true -> PrimFloat.leb (x - y) 0 = true.
Proof.
  intros Fx Fy Hle.
  rewrite FloatAxioms.leb_spec in Hle |- *.
  rewrite FloatAxioms.sub_spec.
  change (Prim2SF 0) with (S754_zero false).
  apply SF64sub_nonpos; auto using FloatAxioms.Prim2SF_valid, is_finite_SFfinite.
Qed.

End Subtraction.

End FloatOrder.

(** ** The velocity estimator *)

Module EncoderSpec.

Import Encoder.
Local Open Scope float_scope.

Lemma get_velocity_guard conv now rotations self :
  (now - prev_time self <=? 0) = true ->
  get_velocity conv now rotations self = (0, self).
Proof. unfold get_velocity. intros ->. reflexivity. Qed.

Lemma get_velocity_sample conv now rotations self :
  (now - prev_time self <=? 0) = false ->
  get_velocity conv now rotations self =
    (unwrap (get_position conv rotations None - prev_angle self)
       / (now - prev_time self),
     {| prev_time := now; prev_angle := get_position conv rotations None |}).
Proof. unfold get_velocity. intros ->. reflexivity. Qed.

(** The state changes only on a call that passes the guard; when [dt] is a
    number, that is a call with [dt > 0]. *)
Lemma get_velocity_mutation conv now rotations self :
  snd (get_velocity conv now rotations self) <> self ->
  (now - prev_time self <=? 0) = false /\
  (is_nan (now - prev_time self) = false -> (0 <? now - prev_time self) = true).
Proof.
  intros Hne.
  destruct (now - prev_time self <=? 0) eqn:Hdt.
  - rewrite (get_velocity_guard _ _ _ _ Hdt) in Hne. simpl in Hne. congruence.
  - split; [reflexivity|]. intros Hnan.
    apply FloatOrder.not_leb_gtb; [exact Hnan | reflexivity | exact Hdt].
Qed.

(** C1: when the time elapsed since the previous sample is positive,
    [get_velocity] returns [d / (t - t_prev)], where [d] is the angle
    difference, less [2π] when it exceeds [π] and plus [2π] when it is below
    [-π], and leaves [(t, a)] as the rolling state.  For the previous sample
    [(0.0, 6.0)] and the sample [0.5] at [0.02] the result is the binary64
    value of [(0.5 - 6.0 + 2π) / 0.02], which is 39.159265358979312: between
    39.159 and 39.160, less than 0.011 away from 39.17. *)
Theorem get_velocity_advancing conv now rotations self :
  let a := get_position conv rotations None in
  let dt := now - prev_time self in
  let d0 := a - prev_angle self in
  let d := if pi <? d0 then d0 - 2 * pi
           else if d0 <? - pi then d0 + 2 * pi
           else d0 in
  (0 <? dt) = true ->
  get_velocity conv now rotations self
    = (d / dt, {| prev_time := now; prev_angle := a |})
  /\ (prev_time self = 0 -> prev_angle self = 6 -> now = 0.02 -> a = 0.5 ->
      let v := fst (get_velocity conv now rotations self) in
      v = (0.5 - 6 + 2 * pi) / 0.02
      /\ (39.159 <? v) = true /\ (v <? 39.160) = true
      /\ (abs (v - 39.17) <? 0.011) = true).
Proof.
  intros a dt d0 d Hdt.
  apply FloatOrder.ltb_not_geb in Hdt.
  rewrite (get_velocity_sample _ _ _ _ Hdt).
  split; [reflexivity|].
  fold a. intros Ht Hp Hn Ha. rewrite Ht, Hp, Hn, Ha. simpl.
  repeat split; vm_compute; reflexivity.
Qed.

(** The run of the spec's example from the hardware readings on: the
    encoder is constructed at time [0.0] reading [6 / 2π] turns and sampled
    at [0.02] reading [0.5 / 2π] turns. *)
Lemma get_velocity_advancing_witness :
  let conv := rotations_to_radians_spec in
  let self := __init__ conv 0 (6 / (2 * pi)) in
  let r := get_velocity conv 0.02 (0.5 / (2 * pi)) self in
  self = {| prev_time := 0; prev_angle := 6 |}
  /\ r = (39.159265358979312, {| prev_time := 0.02; prev_angle := 0.5 |})
  /\ (abs (fst r - 39.17) <? 0.011) = true.
Proof.
  intros conv self r.
  assert (Hdt : (0 <? 0.02 - prev_time self) = true) by (vm_compute; reflexivity).
  destruct (get_velocity_advancing conv 0.02 (0.5 / (2 * pi)) self Hdt) as [Hr Hex].
  split; [vm_compute; reflexivity|].
  split; [subst r; rewrite Hr; vm_compute; reflexivity|].
  apply Hex; vm_compute; reflexivity.
Defined.

(** The readings of "the clock has not advanced": the [dt] the method
    computes is [<= 0], or the two timestamps are finite and ordered. *)
Lemma not_advancing_guard (now t_prev : float) :
  (now - t_prev <=? 0) = true
  \/ (is_finite now = true /\ is_finite t_prev = true /\ (now <=? t_prev) = true) ->
  (now - t_prev <=? 0) = true.
Proof.
  intros [H|(Fn & Fp & Hle)]; [exact H|].
  apply FloatOrder.sub_nonpos; assumption.
Qed.

(** C2: when the current timestamp is not later than [prev_time] (for
    finite timestamps [t <= prev_time]; in general [dt <= 0] for the
    [dt = t - prev_time] the method computes), [get_velocity] returns exactly
    [0.0], whatever the current and the previous angle. *)
Theorem get_velocity_not_advancing conv now rotations self :
  (now - prev_time self <=? 0) = true
  \/ (is_finite now = true /\ is_finite (prev_time self) = true
      /\ (now <=? prev_time self) = true) ->
  fst (get_velocity conv now rotations self) = 0.
Proof.
  intros Hdt. apply not_advancing_guard in Hdt.
  rewrite (get_velocity_guard _ _ _ _ Hdt). reflexivity.
Qed.

Lemma get_velocity_not_advancing_witness :
  fst (get_velocity rotations_to_radians_spec 1.5 0.25
         {| prev_time := 1.5; prev_angle := 6 |}) = 0
  /\ fst (get_velocity rotations_to_radians_spec 1 0.75
         {| prev_time := 1.5; prev_angle := 0.125 |}) = 0.
Proof.
  split.
  - apply get_velocity_not_advancing. left. vm_compute; reflexivity.
  - apply get_velocity_not_advancing. right. repeat split; vm_compute; reflexivity.
Defined.

(** Timestamps that are not finite are left out above: with both at
    [+infinity] the difference is a NaN, the guard does not hold, and the
    method divides by the NaN. *)
Remark get_velocity_infinite_timestamps :
  (infinity <=? infinity) = true
  /\ is_nan (fst (get_velocity rotations_to_radians_spec infinity 0.25
                    {| prev_time := infinity; prev_angle := 0 |})) = true.
Proof. split; vm_compute; reflexivity. Qed.

(** C3: the unwrap step leaves every [delta] with [-π <= delta <= π] as it
    is, [delta = π] and [delta = -π] included, and [get_velocity] then
    divides that same [delta] by [dt]. *)
Theorem unwrap_noop (delta : float) :
  (- pi <=? delta) = true -> (delta <=? pi) = true ->
  unwrap delta = delta
  /\ forall conv now rotations self,
       get_position conv rotations None - prev_angle self = delta ->
       (now - prev_time self <=? 0) = false ->
       fst (get_velocity conv now rotations self) = delta / (now - prev_time self).
Proof.
  intros Hlo Hhi.
  assert (Hu : unwrap delta = delta).
  { unfold unwrap.
    rewrite (FloatOrder.leb_not_gtb _ _ Hhi), (FloatOrder.leb_not_gtb _ _ Hlo).
    reflexivity. }
  split; [exact Hu|].
  intros conv now rotations self Hd Hdt.
  rewrite (get_velocity_sample _ _ _ _ Hdt). cbn [fst]. rewrite Hd, Hu. reflexivity.
Qed.

Lemma unwrap_noop_witness :
  unwrap pi = pi /\ unwrap (- pi) = - pi /\ unwrap 0.783 = 0.783.
Proof.
  split; [|split].
  - apply (unwrap_noop pi); vm_compute; reflexivity.
  - apply (unwrap_noop (- pi)); vm_compute; reflexivity.
  - apply (unwrap_noop 0.783); vm_compute; reflexivity.
Defined.

(** C4: on the guard path ([dt <= 0]; for finite timestamps,
    [t <= prev_time]) [prev_time] and [prev_angle] are after the call what
    they were before it; a call that changes them has passed the guard, which
    for a [dt] that is a number means [dt > 0]. *)
Theorem get_velocity_guard_frame conv now rotations self :
  let dt := now - prev_time self in
  let after := snd (get_velocity conv now rotations self) in
  ((dt <=? 0) = true
   \/ (is_finite now = true /\ is_finite (prev_time self) = true
       /\ (now <=? prev_time self) = true) ->
   after = self /\ prev_time after = prev_time self
   /\ prev_angle after = prev_angle self)
  /\ (after <> self ->
      (dt <=? 0) = false /\ (is_nan dt = false -> (0 <? dt) = true)).
Proof.
  intros dt after. split.
  - intros Hdt. apply not_advancing_guard in Hdt.
    subst after. rewrite (get_velocity_guard _ _ _ _ Hdt). auto.
  - apply get_velocity_mutation.
Qed.

Lemma get_velocity_guard_frame_witness :
  snd (get_velocity rotations_to_radians_spec 1 0.75
         {| prev_time := 1.5; prev_angle := 0.125 |})
  = {| prev_time := 1.5; prev_angle := 0.125 |}
  /\ snd (get_velocity rotations_to_radians_spec 2 0.75
            {| prev_time := 1.5; prev_angle := 0.125 |})
     = {| prev_time := 2; prev_angle := 0.75 * (2 * pi) |}.
Proof.
  split.
  - apply (proj1 (get_velocity_guard_frame rotations_to_radians_spec 1 0.75
                    {| prev_time := 1.5; prev_angle := 0.125 |})).
    right. repeat split; vm_compute; reflexivity.
  - vm_compute; reflexivity.
Defined.

Lemma get_velocity_conversion conv conv' now rotations self :
  (forall r, conv r None = conv' r None) ->
  get_velocity conv now rotations self = get_velocity conv' now rotations self.
Proof.
  intros Hc. unfold get_velocity, get_position. rewrite (Hc rotations). reflexivity.
Qed.

Lemma sample_all_conversion conv conv' samples :
  (forall r, conv r None = conv' r None) ->
  forall self, sample_all conv samples self = sample_all conv' samples self.
Proof.
  intros Hc. induction samples as [|[now rotations] rest IH]; intros self; simpl.
  - reflexivity.
  - rewrite (get_velocity_conversion conv conv' _ _ _ Hc).
    destruct (get_velocity conv' now rotations self) as [v self'].
    rewrite IH. reflexivity.
Qed.

(** C10: [__init__] and [get_velocity] use the conversion only with the
    gear ratio left out: two conversions that agree when no gear ratio is
    given, however they treat one, yield the same initial state and the same
    velocities over every series of samples; [get_position] itself hands a
    gear ratio it is given on to the conversion, which (as the spec describes
    it) divides the angle by it. *)
Theorem get_velocity_without_gear_ratio
    (conv conv' : float -> option float -> float) :
  (forall r, conv r None = conv' r None) ->
  (forall now rotations,
     __init__ conv now rotations = __init__ conv' now rotations)
  /\ (forall now rotations self,
        get_velocity conv now rotations self = get_velocity conv' now rotations self)
  /\ (forall samples self,
        sample_all conv samples self = sample_all conv' samples self)
  /\ (forall rotations g,
        get_position conv rotations (Some g) = conv rotations (Some g))
  /\ (forall rotations g,
        get_position rotations_to_radians_spec rotations (Some g)
        = get_position rotations_to_radians_spec rotations None / g).
Proof.
  intros Hc. split; [|split; [|split; [|split]]].
  - intros now rotations. unfold __init__, get_position. rewrite Hc. reflexivity.
  - intros now rotations self. by apply get_velocity_conversion.
  - intros samples self. by apply sample_all_conversion.
  - reflexivity.
  - reflexivity.
Qed.

(** The conversion of the spec against one that multiplies by the gear
    ratio: the positions with gear ratio [4] differ, the velocities of a run
    do not. *)
Lemma get_velocity_without_gear_ratio_witness :
  let geared := fun r (g : option float) =>
                  match g with
                  | None => r * (2 * pi)
                  | Some g => r * (2 * pi) * g
                  end in
  get_position rotations_to_radians_spec 0.25 (Some 4)
    <> get_position geared 0.25 (Some 4)
  /\ sample_all rotations_to_radians_spec [(0.02, 0.25); (0.04, 0.5)]
       (__init__ rotations_to_radians_spec 0 0.125)
     = sample_all geared [(0.02, 0.25); (0.04, 0.5)] (__init__ geared 0 0.125).
Proof.
  intros geared.
  destruct (get_velocity_without_gear_ratio rotations_to_radians_spec geared
              (fun r => eq_refl)) as (Hinit & _ & Hrun & _).
  split.
  - vm_compute. intros H. discriminate H.
  - rewrite Hinit. apply Hrun.
Defined.

End EncoderSpec.

(** ** The component lifecycle *)

Module ComponentSpec.

Import Component Statements.

(** *** Running the monad *)

Lemma bind_Return {A B} (c : M A) (k : A -> M B) m a m' :
  c m = Return a m' -> bind c k m = k a m'.
Proof. unfold bind. intros ->. reflexivity. Qed.

Lemma bind_Raise {A B} (c : M A) (k : A -> M B) m e m' :
  c m = Raise e m' -> bind c k m = Raise e m'.
Proof. unfold bind. intros ->. reflexivity. Qed.

Lemma attrs_Some self m c :
  attrs_of m self = Some c -> attrs self m = Return c m.
Proof.
  unfold attrs_of, attrs, bind, gets, ret.
  destruct (objects (state m) !! self) as [[cls [c'|]]|]; simpl; congruence.
Qed.

Lemma attrs_None self m :
  attrs_of m self = None -> attrs self m = Raise AttributeError m.
Proof.
  unfold attrs_of, attrs, bind, gets, raise.
  destruct (objects (state m) !! self) as [[cls [c'|]]|]; simpl; congruence.
Qed.

Lemma attrs_of_alter_eq m f c self c0 :
  attrs_of m self = Some c0 ->
  attrs_of {| state := set_objects (alter (set_attrs c) self) (state m); calls := f |} self
  = Some c.
Proof.
  unfold attrs_of. intros H. cbn [state objects set_objects].
  rewrite list_lookup_alter_eq.
  destruct (objects (state m) !! self); [reflexivity | discriminate].
Qed.

Lemma attrs_of_alter_ne m f c self other :
  other <> self ->
  attrs_of {| state := set_objects (alter (set_attrs c) self) (state m); calls := f |} other
  = attrs_of m other.
Proof.
  intros Hne. unfold attrs_of. cbn [state objects set_objects].
  rewrite list_lookup_alter_ne by congruence. reflexivity.
Qed.

(** *** Relations every step of a method keeps *)

Section Preserved.

Variable R : machine -> machine -> Prop.
Hypothesis R_refl : forall m, R m m.
Hypothesis R_trans : forall m1 m2 m3, R m1 m2 -> R m2 m3 -> R m1 m3.

Lemma keeps_ret {A} (a : A) : keeps R (ret a).
Proof. intros m. apply R_refl. Qed.

Lemma keeps_raise {A} e : keeps R (@raise A e).
Proof. intros m. apply R_refl. Qed.

Lemma keeps_gets {A} (f : world -> A) : keeps R (gets f).
Proof. intros m. apply R_refl. Qed.

Lemma keeps_bind {A B} (c : M A) (k : A -> M B) :
  keeps R c -> (forall a, keeps R (k a)) -> keeps R (bind c k).
Proof.
  intros Hc Hk m. unfold bind. specialize (Hc m).
  destruct (c m) as [a m'|e m']; simpl in *; [|exact Hc].
  eapply R_trans; [exact Hc | apply Hk].
Qed.

Lemma keeps_for_each {A} (l : list A) (f : A -> M unit) :
  (forall x, keeps R (f x)) -> keeps R (for_each l f).
Proof.
  intros Hf. induction l as [|x l IH]; simpl.
  - apply keeps_ret.
  - apply keeps_bind; [apply Hf | intros _; exact IH].
Qed.

End Preserved.

Lemma same_objects_refl m : same_objects m m.
Proof. reflexivity. Qed.

Lemma same_objects_trans m1 m2 m3 :
  same_objects m1 m2 -> same_objects m2 m3 -> same_objects m1 m3.
Proof. unfold same_objects. congruence. Qed.

Lemma grows_refl m : grows m m.
Proof. intros self c Hc. exists c. repeat split; [exact Hc | reflexivity..]. Qed.

Lemma grows_trans m1 m2 m3 : grows m1 m2 -> grows m2 m3 -> grows m1 m3.
Proof.
  intros H12 H23 self c Hc.
  destruct (H12 self c Hc) as (c2 & Hc2 & Hr2 & Ht2 & Hp2).
  destruct (H23 self c2 Hc2) as (c3 & Hc3 & Hr3 & Ht3 & Hp3).
  exists c3. repeat split; [exact Hc3 | congruence | by etrans | by etrans].
Qed.

Lemma same_objects_grows m m' : same_objects m m' -> grows m m'.
Proof.
  intros Hs self c Hc. exists c.
  unfold attrs_of in *. rewrite Hs. repeat split; [exact Hc | reflexivity..].
Qed.

Lemma keeps_weaken (R R' : machine -> machine -> Prop) {A} (c : M A) :
  (forall m m', R m m' -> R' m m') -> keeps R c -> keeps R' c.
Proof. intros HR Hc m. apply HR, Hc. Qed.

Lemma keeps_log c : keeps same_objects (log c).
Proof. intros m. reflexivity. Qed.

Lemma keeps_modify f :
  (forall w, objects (f w) = objects w) -> keeps same_objects (modify f).
Proof. intros Hf m. apply Hf. Qed.

Ltac keeps_objects :=
  repeat first
    [ apply (keeps_bind same_objects same_objects_trans); [|intros ?]
    | apply (keeps_ret same_objects same_objects_refl)
    | apply (keeps_raise same_objects same_objects_refl)
    | apply (keeps_gets same_objects same_objects_refl)
    | apply keeps_log
    | apply keeps_modify; intros ?; reflexivity
    | match goal with
      | |- keeps _ (if ?b then _ else _) => destruct b
      | |- keeps _ (match ?x with _ => _ end) => destruct x
      end ].

Lemma keeps_TunableValue_new directory dflt :
  keeps same_objects (TunableValue_new directory dflt).
Proof. unfold TunableValue_new. keeps_objects. Qed.

Lemma keeps_TunableValue_update t : keeps same_objects (TunableValue_update t).
Proof. unfold TunableValue_update. keeps_objects. Qed.

Lemma keeps_TunablePIDController_new p i d per :
  keeps same_objects (TunablePIDController_new p i d per).
Proof. unfold TunablePIDController_new. keeps_objects. Qed.

Lemma keeps_update_from_tunables p :
  keeps same_objects (TunablePIDController_update_from_tunables p).
Proof.
  unfold TunablePIDController_update_from_tunables.
  keeps_objects; apply keeps_TunableValue_update.
Qed.

Lemma keeps_telemetry_put_value robot directory v :
  keeps same_objects (telemetry_put_value robot directory v).
Proof. unfold telemetry_put_value. keeps_objects. Qed.

Lemma keeps_attrs self : keeps same_objects (attrs self).
Proof. unfold attrs. keeps_objects. Qed.

(** *** The factories, step by step *)

Lemma TunableValue_new_ok directory dflt m :
  directory <> EmptyString ->
  TunableValue_new directory dflt m =
    Return (length (tunable_values (state m)))
      {| state := set_tunable_values (fun h => h ++ [new_tunable directory dflt]) (state m);
         calls := calls m |}.
Proof.
  intros Hne. unfold TunableValue_new. rewrite bool_decide_false by exact Hne.
  reflexivity.
Qed.

Lemma TunableValue_new_empty dflt m :
  TunableValue_new EmptyString dflt m = Raise ConfigurationError m.
Proof. reflexivity. Qed.

Lemma append_nonempty (directory suffix : string) :
  suffix <> EmptyString -> directory +:+ suffix <> EmptyString.
Proof.
  intros Hs. destruct directory; simpl; [exact Hs | discriminate].
Qed.

Lemma negative_default_float w t tv x :
  tunable_values w !! t = Some tv -> tv_default tv = VFloat x ->
  negative_default w t = PrimFloat.ltb x 0.
Proof. unfold negative_default. intros -> Hd. simpl. rewrite Hd. reflexivity. Qed.

Lemma TunablePIDController_new_ok p i d per m :
  PrimFloat.leb per 0 = false ->
  negative_default (state m) p = false ->
  negative_default (state m) i = false ->
  negative_default (state m) d = false ->
  TunablePIDController_new p i d per m =
    Return (length (pid_controllers (state m)))
      {| state := set_pid_controllers
           (fun h => h ++ [{| kp := p; ki := i; kd := d; period := per;
                              snapshot := (default (VFloat 0) (TunableValue_get (state m) p),
                                           default (VFloat 0) (TunableValue_get (state m) i),
                                           default (VFloat 0) (TunableValue_get (state m) d)) |}])
           (state m);
         calls := calls m |}.
Proof.
  intros Hper Hp Hi Hd. unfold TunablePIDController_new, bind, gets. simpl.
  rewrite Hper, Hp, Hi, Hd. reflexivity.
Qed.

Lemma TunablePIDController_new_fails p i d per m :
  PrimFloat.leb per 0 || negative_default (state m) p
    || negative_default (state m) i || negative_default (state m) d = true ->
  TunablePIDController_new p i d per m = Raise ConfigurationError m.
Proof.
  intros H. unfold TunablePIDController_new, bind, gets. simpl.
  rewrite H. reflexivity.
Qed.

Lemma with_gains_lookup directory kp ki kd h :
  let n := length h in
  with_gains directory kp ki kd h !! n = Some (new_tunable (directory +:+ "/kp") (VFloat kp))
  /\ with_gains directory kp ki kd h !! S n = Some (new_tunable (directory +:+ "/ki") (VFloat ki))
  /\ with_gains directory kp ki kd h !! S (S n) = Some (new_tunable (directory +:+ "/kd") (VFloat kd)).
Proof.
  unfold with_gains. simpl. repeat split.
  - rewrite lookup_app_r by lia. rewrite Nat.sub_diag. reflexivity.
  - rewrite lookup_app_r by lia.
    replace (S (length h) - length h) with 1 by lia. reflexivity.
  - rewrite lookup_app_r by lia.
    replace (S (S (length h)) - length h) with 2 by lia. reflexivity.
Qed.

Lemma negative_default_gains directory gp gi gd w :
  let n := length (tunable_values w) in
  let w' := set_tunable_values (with_gains directory gp gi gd) w in
  negative_default w' n = PrimFloat.ltb gp 0
  /\ negative_default w' (S n) = PrimFloat.ltb gi 0
  /\ negative_default w' (S (S n)) = PrimFloat.ltb gd 0.
Proof.
  intros n w'.
  destruct (with_gains_lookup directory gp gi gd (tunable_values w)) as (H1 & H2 & H3).
  repeat split; eapply negative_default_float; simpl; eauto.
Qed.

Lemma tunablePID_after_gains self gp gi gd directory period m :
  let dir := default "Tunables/PIDController"%string directory in
  let per := default 0.02%float period in
  let n := length (tunable_values (state m)) in
  tunablePID self gp gi gd directory period m =
    bind (TunablePIDController_new n (S n) (S (S n)) per) (register_pid self)
      {| state := set_tunable_values (with_gains dir gp gi gd) (state m);
         calls := calls m |}.
Proof.
  intros dir per n. unfold tunablePID. fold dir. fold per.
  erewrite bind_Return by (apply TunableValue_new_ok, append_nonempty; discriminate).
  erewrite bind_Return by (apply TunableValue_new_ok, append_nonempty; discriminate).
  erewrite bind_Return by (apply TunableValue_new_ok, append_nonempty; discriminate).
  unfold with_gains, set_tunable_values. simpl.
  rewrite !length_app. simpl. rewrite !Nat.add_1_r.
  rewrite <- !app_assoc. reflexivity.
Qed.

Lemma valid_gains_pass gp gi gd per :
  valid_gains gp gi gd per ->
  PrimFloat.leb per 0 = false /\ PrimFloat.ltb gp 0 = false
  /\ PrimFloat.ltb gi 0 = false /\ PrimFloat.ltb gd 0 = false.
Proof.
  intros (Hp & Hi & Hd & Hper).
  repeat split;
    first [ apply FloatOrder.ltb_not_geb; assumption
          | apply FloatOrder.leb_not_gtb; assumption ].
Qed.

Lemma invalid_gains_fail gp gi gd per :
  invalid_gains gp gi gd per ->
  PrimFloat.leb per 0 || PrimFloat.ltb gp 0 || PrimFloat.ltb gi 0
    || PrimFloat.ltb gd 0 = true.
Proof.
  intros [H|[H|[H|H]]]; rewrite H; simpl;
    rewrite ?orb_true_r; reflexivity.
Qed.

Lemma holds_gains_negative w p i d gp gi gd :
  holds_gains w p i d gp gi gd ->
  negative_default w p = PrimFloat.ltb gp 0
  /\ negative_default w i = PrimFloat.ltb gi 0
  /\ negative_default w d = PrimFloat.ltb gd 0.
Proof.
  unfold holds_gains, negative_default. intros (-> & -> & ->). auto.
Qed.

Lemma tunablePID_ok self c gp gi gd directory period m :
  let dir := default "Tunables/PIDController"%string directory in
  let per := default 0.02%float period in
  valid_gains gp gi gd per ->
  attrs_of m self = Some c ->
  tunablePID self gp gi gd directory period m =
    Return (length (pid_controllers (state m)))
           (after_tunablePID self c gp gi gd dir per m).
Proof.
  intros dir per Hv Hc.
  apply valid_gains_pass in Hv. destruct Hv as (Hper & Hp & Hi & Hd).
  rewrite tunablePID_after_gains. fold dir. fold per.
  destruct (negative_default_gains dir gp gi gd (state m)) as (N1 & N2 & N3).
  erewrite bind_Return; cycle 1.
  { apply TunablePIDController_new_ok; simpl; congruence. }
  unfold register_pid.
  erewrite bind_Return; cycle 1.
  { apply attrs_Some. unfold attrs_of in *. simpl. exact Hc. }
  reflexivity.
Qed.

Lemma tunablePID_invalid self gp gi gd directory period m :
  let dir := default "Tunables/PIDController"%string directory in
  let per := default 0.02%float period in
  invalid_gains gp gi gd per ->
  tunablePID self gp gi gd directory period m =
    Raise ConfigurationError
      {| state := set_tunable_values (with_gains dir gp gi gd) (state m);
         calls := calls m |}.
Proof.
  intros dir per Hv. apply invalid_gains_fail in Hv.
  rewrite tunablePID_after_gains. fold dir. fold per.
  destruct (negative_default_gains dir gp gi gd (state m)) as (N1 & N2 & N3).
  apply bind_Raise, TunablePIDController_new_fails. simpl.
  rewrite N1, N2, N3. exact Hv.
Qed.

(** *** Append-only collections *)

Lemma grows_extend {A} self (ext : AdaptiveComponent -> AdaptiveComponent) (v : A) :
  (forall c, _robot (ext c) = _robot c
             /\ _tunables c `prefix_of` _tunables (ext c)
             /\ _tunable_pids c `prefix_of` _tunable_pids (ext c)) ->
  keeps grows (do c <- attrs self;
               modify (set_objects (alter (set_attrs (ext c)) self)) ;; ret v).
Proof.
  intros Hext m.
  destruct (attrs_of m self) as [c|] eqn:Hc.
  - rewrite (bind_Return _ _ _ _ _ (attrs_Some _ _ _ Hc)).
    unfold bind, modify, ret. simpl.
    intros other c0 H0. destruct (decide (other = self)) as [->|Hne].
    + exists (ext c). rewrite (attrs_of_alter_eq _ _ _ _ _ Hc).
      assert (c0 = c) as -> by congruence.
      destruct (Hext c) as (? & ? & ?). auto.
    + exists c0. rewrite (attrs_of_alter_ne _ _ _ _ _ Hne).
      repeat split; [exact H0 | reflexivity..].
  - rewrite (bind_Raise _ _ _ _ _ (attrs_None _ _ Hc)). apply grows_refl.
Qed.

Lemma keeps_grows_of_objects {A} (c : M A) : keeps same_objects c -> keeps grows c.
Proof. apply keeps_weaken. exact same_objects_grows. Qed.

Lemma grows_tunable self directory dflt : keeps grows (tunable self directory dflt).
Proof.
  unfold tunable. apply (keeps_bind grows grows_trans).
  - apply keeps_grows_of_objects, keeps_TunableValue_new.
  - intros t.
    apply (grows_extend self
             (fun c => {| _robot := _robot c; _tunables := _tunables c ++ [t];
                          _tunable_pids := _tunable_pids c |})).
    intros c. simpl. repeat split; [by apply prefix_app_r | reflexivity].
Qed.

Lemma grows_tunablePID self gp gi gd directory period :
  keeps grows (tunablePID self gp gi gd directory period).
Proof.
  unfold tunablePID.
  repeat (apply (keeps_bind grows grows_trans);
          [apply keeps_grows_of_objects, keeps_TunableValue_new | intros ?]).
  apply (keeps_bind grows grows_trans);
    [apply keeps_grows_of_objects, keeps_TunablePIDController_new | intros p].
  apply (grows_extend self
           (fun c => {| _robot := _robot c; _tunables := _tunables c;
                        _tunable_pids := _tunable_pids c ++ [p] |})).
  intros c. simpl. repeat split; [reflexivity | by apply prefix_app_r].
Qed.

Lemma keeps_update_tunable_constants self :
  keeps same_objects (update_tunable_constants self).
Proof.
  unfold update_tunable_constants.
  apply (keeps_bind same_objects same_objects_trans); [apply keeps_attrs|intros c].
  apply (keeps_for_each same_objects same_objects_refl same_objects_trans).
  intros t. keeps_objects; try apply keeps_TunableValue_update.
Qed.

Lemma keeps_update_tunable_pids self :
  keeps same_objects (update_tunable_pids self).
Proof.
  unfold update_tunable_pids.
  apply (keeps_bind same_objects same_objects_trans); [apply keeps_attrs|intros c].
  apply (keeps_for_each same_objects same_objects_refl same_objects_trans).
  intros t. keeps_objects; try apply keeps_update_from_tunables.
Qed.

Lemma keeps_publish_value self directory v :
  keeps same_objects (publish_value self directory v).
Proof.
  unfold publish_value.
  apply (keeps_bind same_objects same_objects_trans); [apply keeps_attrs|intros c].
  keeps_objects; try apply keeps_telemetry_put_value.
Qed.

Lemma grows_perform self op : keeps grows (perform self op).
Proof.
  destruct op; simpl.
  - apply keeps_grows_of_objects, keeps_update_tunable_constants.
  - apply keeps_grows_of_objects, keeps_update_tunable_pids.
  - apply (keeps_bind grows grows_trans); [apply grows_tunable|].
    intros _. apply (keeps_ret grows grows_refl).
  - apply (keeps_bind grows grows_trans); [apply grows_tunablePID|].
    intros _. apply (keeps_ret grows grows_refl).
  - apply keeps_grows_of_objects, keeps_publish_value.
  - apply (keeps_ret grows grows_refl).
  - apply (keeps_ret grows grows_refl).
Qed.

Lemma grows_perform_all ops m : grows m (perform_all ops m).
Proof.
  revert m. induction ops as [|[self op] ops IH]; intros m; simpl.
  - apply grows_refl.
  - eapply grows_trans; [apply grows_perform | apply IH].
Qed.

(** A factory call that raises has changed no component. *)
Lemma register_Raise {A} self (f : AdaptiveComponent -> AdaptiveComponent) (v : A) m e m' :
  bind (attrs self) (fun c =>
    modify (set_objects (alter (set_attrs (f c)) self)) ;; ret v) m = Raise e m' ->
  m' = m.
Proof.
  destruct (attrs_of m self) as [c|] eqn:Hc.
  - rewrite (bind_Return _ _ _ _ _ (attrs_Some _ _ _ Hc)). discriminate.
  - rewrite (bind_Raise _ _ _ _ _ (attrs_None _ _ Hc)). congruence.
Qed.

Lemma tunable_Raise self directory dflt m e m' :
  tunable self directory dflt m = Raise e m' -> same_objects m m'.
Proof.
  unfold tunable. intros H.
  destruct (decide (directory = EmptyString)) as [->|Hne].
  - rewrite (bind_Raise _ _ _ _ _ (TunableValue_new_empty _ _)) in H.
    injection H as _ <-. reflexivity.
  - rewrite (bind_Return _ _ _ _ _ (TunableValue_new_ok _ _ _ Hne)) in H.
    apply (register_Raise self
             (fun c => {| _robot := _robot c;
                          _tunables := _tunables c ++ [length (tunable_values (state m))];
                          _tunable_pids := _tunable_pids c |})) in H.
    subst m'. reflexivity.
Qed.

Lemma tunablePID_Raise self gp gi gd directory period m e m' :
  tunablePID self gp gi gd directory period m = Raise e m' -> same_objects m m'.
Proof.
  rewrite tunablePID_after_gains. unfold bind at 1.
  set (m3 := {| state := _; calls := _ |}).
  pose proof (keeps_TunablePIDController_new
                (length (tunable_values (state m)))
                (S (length (tunable_values (state m))))
                (S (S (length (tunable_values (state m)))))
                (default 0.02%float period) m3) as Hk.
  destruct (TunablePIDController_new _ _ _ _ m3) as [p m4|e4 m4]; simpl in Hk.
  - unfold register_pid. intros H.
    apply (register_Raise self
             (fun c => {| _robot := _robot c; _tunables := _tunables c;
                          _tunable_pids := _tunable_pids c ++ [p] |})) in H.
    subst m'. exact Hk.
  - intros H; simplify_eq. exact Hk.
Qed.

Lemma tunable_ok self c directory dflt m :
  directory <> EmptyString ->
  attrs_of m self = Some c ->
  tunable self directory dflt m =
    Return (length (tunable_values (state m)))
      {| state := set_objects
           (alter (set_attrs {| _robot := _robot c;
                                _tunables := _tunables c ++ [length (tunable_values (state m))];
                                _tunable_pids := _tunable_pids c |}) self)
           (set_tunable_values (fun h => h ++ [new_tunable directory dflt]) (state m));
         calls := calls m |}.
Proof.
  intros Hne Hc. unfold tunable.
  rewrite (bind_Return _ _ _ _ _ (TunableValue_new_ok _ _ _ Hne)).
  erewrite bind_Return; cycle 1.
  { apply attrs_Some. unfold attrs_of in *. simpl. exact Hc. }
  reflexivity.
Qed.

Lemma lookup_length_None {A} (l : list A) : l !! length l = None.
Proof. apply lookup_ge_None. lia. Qed.

Lemma lookup_snoc_length {A} (l : list A) (x : A) : (l ++ [x]) !! length l = Some x.
Proof. by apply list_lookup_middle. Qed.

(** *** Properties of the factories *)

(** C6: a [TunablePIDController] over gain tunables with defaults [gp],
    [gi], [gd] is constructed when each of them is [>= 0] and the period is
    [> 0], and construction raises [ConfigurationError] when the period is
    [<= 0] or a default gain is [< 0]; [tunablePID] builds the gain tunables
    from its arguments and passes its period on, so it returns a controller
    with these gains and this period in the first case and raises
    [ConfigurationError] in the second. *)
Theorem TunablePIDController_validation (gp gi gd per : float) :
  (forall m p i d,
     holds_gains (state m) p i d gp gi gd ->
     (valid_gains gp gi gd per ->
      exists m', TunablePIDController_new p i d per m
                 = Return (length (pid_controllers (state m))) m')
     /\ (invalid_gains gp gi gd per ->
         TunablePIDController_new p i d per m = Raise ConfigurationError m))
  /\ (forall self c directory period m,
        default 0.02%float period = per ->
        attrs_of m self = Some c ->
        (valid_gains gp gi gd per ->
         exists q m' ctl,
           tunablePID self gp gi gd directory period m = Return q m'
           /\ pid_controllers (state m') !! q = Some ctl
           /\ Component.period ctl = per
           /\ holds_gains (state m') (Component.kp ctl) (Component.ki ctl)
                (Component.kd ctl) gp gi gd)
        /\ (invalid_gains gp gi gd per ->
            exists m', tunablePID self gp gi gd directory period m
                       = Raise ConfigurationError m')).
Proof.
  split.
  - intros m p i d Hg.
    destruct (holds_gains_negative _ _ _ _ _ _ _ Hg) as (N1 & N2 & N3).
    split.
    + intros Hv. apply valid_gains_pass in Hv. destruct Hv as (Hper & Hp & Hi & Hd).
      eexists. apply TunablePIDController_new_ok; congruence.
    + intros Hv. apply invalid_gains_fail in Hv.
      apply TunablePIDController_new_fails. rewrite N1, N2, N3. exact Hv.
  - intros self c directory period m <- Hc. split.
    + intros Hv.
      eexists _, _, _. split; [apply (tunablePID_ok _ c); assumption|].
      unfold after_tunablePID. cbn [state pid_controllers set_objects set_pid_controllers
                                    set_tunable_values tunable_values].
      split; [apply lookup_snoc_length|].
      split; [reflexivity|].
      cbn [Component.kp Component.ki Component.kd].
      destruct (with_gains_lookup (default "Tunables/PIDController"%string directory)
                  gp gi gd (tunable_values (state m))) as (H1 & H2 & H3).
      unfold holds_gains.
      cbn [state tunable_values set_objects set_pid_controllers set_tunable_values].
      rewrite H1, H2, H3. auto.
    + intros Hv. eexists. apply tunablePID_invalid. exact Hv.
Qed.

(** Two runs of the factory on [one_component]: gains [1.5], [0], [0.25]
    with the default period, and a negative [kp]. *)
Lemma TunablePIDController_validation_witness :
  (exists m', tunablePID 0 1.5 0 0.25 None None one_component = Return 0 m'
              /\ attrs_of m' 0 = Some {| _robot := 0; _tunables := []; _tunable_pids := [0] |})
  /\ (exists m', tunablePID 0 (-1) 0 0.25 None None one_component
                 = Raise ConfigurationError m').
Proof.
  split.
  - destruct (proj2 (TunablePIDController_validation 1.5 0 0.25 0.02)
                0 {| _robot := 0; _tunables := []; _tunable_pids := [] |}
                None None one_component eq_refl eq_refl) as [Hok _].
    destruct Hok as (q & m' & ctl & Hrun & _).
    { repeat split; vm_compute; reflexivity. }
    exists m'.
    assert (Hv : valid_gains 1.5 0 0.25 (default 0.02%float None))
      by (repeat split; vm_compute; reflexivity).
    pose proof (tunablePID_ok 0 {| _robot := 0; _tunables := []; _tunable_pids := [] |}
                  1.5 0 0.25 None None one_component Hv eq_refl) as Hrun'.
    rewrite Hrun' in Hrun. injection Hrun as <- <-.
    split; reflexivity.
  - destruct (proj2 (TunablePIDController_validation (-1) 0 0.25 0.02)
                0 {| _robot := 0; _tunables := []; _tunable_pids := [] |}
                None None one_component eq_refl eq_refl) as [_ Hbad].
    apply Hbad. right; left. vm_compute; reflexivity.
Defined.

Lemma refused_gains_false gp gi gd per :
  refused_gains gp gi gd per = false ->
  PrimFloat.leb per 0 = false /\ PrimFloat.ltb gp 0 = false
  /\ PrimFloat.ltb gi 0 = false /\ PrimFloat.ltb gd 0 = false.
Proof.
  unfold refused_gains. intros H.
  repeat (apply orb_false_elim in H as [H ?]). auto.
Qed.

Lemma refused_gains_true gp gi gd per :
  refused_gains gp gi gd per = true -> invalid_gains gp gi gd per.
Proof.
  unfold refused_gains, invalid_gains. intros H.
  repeat (apply orb_prop in H as [H|H]); auto.
Qed.

Lemma tunablePID_accepted self c gp gi gd directory period m :
  let dir := default "Tunables/PIDController"%string directory in
  let per := default 0.02%float period in
  refused_gains gp gi gd per = false ->
  attrs_of m self = Some c ->
  tunablePID self gp gi gd directory period m =
    Return (length (pid_controllers (state m)))
           (after_tunablePID self c gp gi gd dir per m).
Proof.
  intros dir per Hv Hc.
  apply refused_gains_false in Hv. destruct Hv as (Hper & Hp & Hi & Hd).
  rewrite tunablePID_after_gains. fold dir. fold per.
  destruct (negative_default_gains dir gp gi gd (state m)) as (N1 & N2 & N3).
  erewrite bind_Return; cycle 1.
  { apply TunablePIDController_new_ok; simpl; congruence. }
  unfold register_pid.
  erewrite bind_Return; cycle 1.
  { apply attrs_Some. unfold attrs_of in *. simpl. exact Hc. }
  reflexivity.
Qed.

(** Constructing a component leaves the objects that exist as they are. *)
Lemma instantiate_keeps_objects classes cls robot m i o :
  objects (state m) !! i = Some o ->
  objects (state (machine_of (instantiate classes cls robot m))) !! i = Some o.
Proof.
  intros Hi. unfold instantiate.
  destruct (classes !! cls) as [ns|]; [|exact Hi].
  destruct (bool_decide (__abstractmethods__ ns = ∅)); [|exact Hi].
  pose proof (lookup_lt_Some _ _ _ Hi) as Hlt.
  unfold bind at 1. unfold gets at 1. unfold bind at 1. unfold modify at 1.
  unfold __init__, AdaptiveRobot_add_component, bind, log, gets, modify, ret, raise.
  simpl. destruct (robots (state m) !! robot) as [r|]; simpl.
  - rewrite list_lookup_alter_ne by lia. by apply lookup_app_l_Some.
  - by apply lookup_app_l_Some.
Qed.

Lemma grows_run_step classes s : keeps grows (run_step classes s).
Proof.
  destruct s as [self op|cls robot]; simpl.
  - apply grows_perform.
  - intros m self c Hc. exists c.
    unfold bind. unfold attrs_of in *.
    destruct (objects (state m) !! self) as [o|] eqn:Ho; [|discriminate].
    pose proof (instantiate_keeps_objects classes cls robot m self o Ho) as Hk.
    destruct (instantiate classes cls robot m) as [a m'|e m']; simpl in *;
      rewrite Hk; (split; [exact Hc|]); repeat split; reflexivity.
Qed.

Lemma grows_run_steps classes l : forall m, grows m (run_steps classes l m).
Proof.
  induction l as [|s l IH]; intros m; simpl.
  - apply grows_refl.
  - eapply grows_trans; [apply grows_run_step | apply IH].
Qed.

(** C9: every call of [tunable] and of [tunablePID] on an initialised
    component that returns has created an object that did not exist before,
    appended it at the end of the component's collection of its kind, left
    the other collection alone, and returned that object; a call returns
    unless the constructor it calls raises (the empty key; a period [<= 0] or
    a negative gain), and then nothing is appended.  Through every history of
    operations of the class and of constructions of further components, each
    collection keeps what it had, in the same order, as a prefix. *)
Theorem factories_append (self : ref) (c : AdaptiveComponent) (m : machine) :
  attrs_of m self = Some c ->
  (forall directory dflt t m',
     tunable self directory dflt m = Return t m' ->
     t = length (tunable_values (state m))
     /\ tunable_values (state m) !! t = None
     /\ tunable_values (state m') !! t = Some (new_tunable directory dflt)
     /\ attrs_of m' self = Some {| _robot := _robot c;
                                   _tunables := _tunables c ++ [t];
                                   _tunable_pids := _tunable_pids c |})
  /\ (forall directory dflt,
        directory <> EmptyString ->
        exists m', tunable self directory dflt m
                   = Return (length (tunable_values (state m))) m')
  /\ (forall gp gi gd directory period q m',
        tunablePID self gp gi gd directory period m = Return q m' ->
        q = length (pid_controllers (state m))
        /\ pid_controllers (state m) !! q = None
        /\ (exists ctl, pid_controllers (state m') !! q = Some ctl
                        /\ Component.period ctl = default 0.02%float period
                        /\ holds_gains (state m') (Component.kp ctl) (Component.ki ctl)
                             (Component.kd ctl) gp gi gd)
        /\ attrs_of m' self = Some {| _robot := _robot c;
                                      _tunables := _tunables c;
                                      _tunable_pids := _tunable_pids c ++ [q] |})
  /\ (forall gp gi gd directory period,
        refused_gains gp gi gd (default 0.02%float period) = false ->
        exists m', tunablePID self gp gi gd directory period m
                   = Return (length (pid_controllers (state m))) m')
  /\ (forall directory dflt e m',
        tunable self directory dflt m = Raise e m' ->
        directory = EmptyString /\ attrs_of m' self = Some c)
  /\ (forall gp gi gd directory period e m',
        tunablePID self gp gi gd directory period m = Raise e m' ->
        refused_gains gp gi gd (default 0.02%float period) = true
        /\ attrs_of m' self = Some c)
  /\ (forall classes steps, exists c',
        attrs_of (run_steps classes steps m) self = Some c'
        /\ _tunables c `prefix_of` _tunables c'
        /\ _tunable_pids c `prefix_of` _tunable_pids c').
Proof.
  intros Hc. split; [|split; [|split; [|split; [|split; [|split]]]]].
  - intros directory dflt t m' Hrun.
    destruct (decide (directory = EmptyString)) as [->|Hne].
    { unfold tunable in Hrun.
      rewrite (bind_Raise _ _ _ _ _ (TunableValue_new_empty _ _)) in Hrun.
      discriminate. }
    rewrite (tunable_ok self c directory dflt m Hne Hc) in Hrun.
    injection Hrun as <- <-.
    split; [reflexivity|]. split; [apply lookup_length_None|].
    split; [apply lookup_snoc_length|].
    apply (attrs_of_alter_eq
             {| state := set_tunable_values _ (state m); calls := calls m |} _ _ _ c).
    exact Hc.
  - intros directory dflt Hne. eexists. apply (tunable_ok _ c); assumption.
  - intros gp gi gd directory period q m' Hrun.
    destruct (refused_gains gp gi gd (default 0.02%float period)) eqn:Hacc.
    { rewrite (tunablePID_invalid self gp gi gd directory period m
                 (refused_gains_true _ _ _ _ Hacc)) in Hrun. discriminate. }
    rewrite (tunablePID_accepted self c gp gi gd directory period m Hacc Hc) in Hrun.
    injection Hrun as <- <-.
    split; [reflexivity|]. split; [apply lookup_length_None|].
    split.
    + eexists. unfold after_tunablePID.
      cbn [state pid_controllers set_objects set_pid_controllers set_tunable_values].
      split; [apply lookup_snoc_length|]. split; [reflexivity|].
      cbn [Component.kp Component.ki Component.kd].
      destruct (with_gains_lookup (default "Tunables/PIDController"%string directory)
                  gp gi gd (tunable_values (state m))) as (H1 & H2 & H3).
      unfold holds_gains.
      cbn [state tunable_values set_objects set_pid_controllers set_tunable_values].
      rewrite H1, H2, H3. auto.
    + unfold after_tunablePID.
      apply (attrs_of_alter_eq
               {| state := set_pid_controllers _ (set_tunable_values _ (state m));
                  calls := calls m |} _ _ _ c).
      exact Hc.
  - intros gp gi gd directory period Hacc. eexists.
    apply (tunablePID_accepted _ c); assumption.
  - intros directory dflt e m' Hrun. split.
    + destruct (decide (directory = EmptyString)) as [Heq|Hne]; [exact Heq|].
      rewrite (tunable_ok self c directory dflt m Hne Hc) in Hrun. discriminate.
    + apply tunable_Raise in Hrun. unfold attrs_of in *. rewrite Hrun. exact Hc.
  - intros gp gi gd directory period e m' Hrun. split.
    + destruct (refused_gains gp gi gd (default 0.02%float period)) eqn:Hacc;
        [reflexivity|].
      rewrite (tunablePID_accepted self c gp gi gd directory period m Hacc Hc) in Hrun.
      discriminate.
    + apply tunablePID_Raise in Hrun. unfold attrs_of in *. rewrite Hrun. exact Hc.
  - intros classes steps.
    destruct (grows_run_steps classes steps m self c Hc) as (c' & ? & ? & ? & ?).
    eauto.
Qed.

(** On [equipped], whose component owns the tunables [0] and [4] and the
    controller [0]: a further tunable is object [5] and a further controller
    object [1], each appended last; and after a history of operations and of
    constructions the collections still begin with what they held. *)
Lemma factories_append_witness :
  (exists m', tunable 0 "Drive/max" (VFloat 3) equipped = Return 5 m'
              /\ attrs_of m' 0
                 = Some {| _robot := 0; _tunables := [0; 4; 5]; _tunable_pids := [0] |})
  /\ (exists m', tunablePID 0 2 0 0.5 (Some "Arm/pid"%string) None equipped = Return 1 m'
                 /\ attrs_of m' 0
                    = Some {| _robot := 0; _tunables := [0; 4]; _tunable_pids := [0; 1] |})
  /\ exists c',
       attrs_of (run_steps demo_classes
                   [StepOperation 0 (OpTunable "Drive/max" (VFloat 3));
                    StepConstruct "Drive" 0;
                    StepOperation 0 (OpTunablePID (-1) 0 0 None None);
                    StepOperation 1 (OpTunable "Arm/limit" (VInt 4));
                    StepOperation 0 OpUpdateTunableConstants;
                    StepOperation 0 (OpPublishValue "Drive/left" (VFloat 0.5))]
                   equipped) 0 = Some c'
       /\ [0; 4] `prefix_of` _tunables c'
       /\ [0] `prefix_of` _tunable_pids c'.
Proof.
  destruct (factories_append 0 {| _robot := 0; _tunables := [0; 4]; _tunable_pids := [0] |}
              equipped) as (HT & HTr & HP & HPr & _ & _ & Hsteps).
  { vm_compute. reflexivity. }
  split; [|split].
  - destruct (HTr "Drive/max"%string (VFloat 3)) as [m' Hrun]; [discriminate|].
    exists m'. split; [exact Hrun|].
    destruct (HT _ _ _ _ Hrun) as (_ & _ & _ & Hattrs). exact Hattrs.
  - destruct (HPr 2%float 0%float 0.5%float (Some "Arm/pid"%string) None) as [m' Hrun];
      [vm_compute; reflexivity|].
    exists m'. split; [exact Hrun|].
    destruct (HP _ _ _ _ _ _ _ Hrun) as (_ & _ & _ & Hattrs). exact Hattrs.
  - apply Hsteps.
Defined.

(** *** Construction *)

Lemma __init___ok self robot r m :
  robots (state m) !! robot = Some r ->
  __init__ self robot m = Return tt (after_init self robot m).
Proof.
  intros Hr. unfold __init__, AdaptiveRobot_add_component, bind, log, gets, modify.
  simpl. rewrite Hr. reflexivity.
Qed.

(** C8: [__init__] makes one call to a registry, [add_component] on the
    robot it is given; when it returns, that robot has the component as its
    last registration, every other registry is as it was (so a component no
    registry had before is in this one only), and the component's [_robot] is
    that robot. *)
Theorem init_registers (self robot : ref) (r : AdaptiveRobot) (m : machine) :
  robots (state m) !! robot = Some r ->
  exists m',
    __init__ self robot m = Return tt m'
    /\ calls m' = calls m ++ [CallAddComponent robot self]
    /\ robots (state m') !! robot
       = Some {| components := components r ++ [self];
                 telemetry_publisher := telemetry_publisher r |}
    /\ (forall other, other <> robot ->
          robots (state m') !! other = robots (state m) !! other)
    /\ ((forall i ri, robots (state m) !! i = Some ri -> self ∉ components ri) ->
        forall i ri, robots (state m') !! i = Some ri ->
          (self ∈ components ri <-> i = robot))
    /\ (is_Some (objects (state m) !! self) ->
        attrs_of m' self = Some (fresh_attrs robot)).
Proof.
  intros Hr. exists (after_init self robot m).
  assert (Hreg : robots (state (after_init self robot m)) !! robot
                 = Some (add_to self r)).
  { simpl. rewrite list_lookup_alter_eq, Hr. reflexivity. }
  assert (Hother : forall other, other <> robot ->
            robots (state (after_init self robot m)) !! other
            = robots (state m) !! other).
  { intros other Hne. simpl. apply list_lookup_alter_ne. congruence. }
  split; [exact (__init___ok _ _ _ _ Hr)|].
  split; [reflexivity|].
  split; [exact Hreg|].
  split; [exact Hother|].
  split.
  - intros Hfresh i ri Hi. destruct (decide (i = robot)) as [->|Hne].
    + rewrite Hreg in Hi. injection Hi as <-. simpl.
      split; [reflexivity|]. intros _. apply elem_of_app. right. by apply list_elem_of_singleton.
    + rewrite (Hother _ Hne) in Hi. split; [|congruence].
      intros Hin. destruct (Hfresh _ _ Hi Hin).
  - intros [o Ho]. unfold attrs_of. simpl.
    rewrite list_lookup_alter_eq, Ho. reflexivity.
Qed.

Lemma init_registers_witness :
  exists m',
    __init__ 0 1 two_robots = Return tt m'
    /\ calls m' = [CallAddComponent 1 0]
    /\ components <$> robots (state m') = [[]; [0]]
    /\ attrs_of m' 0 = Some (fresh_attrs 1).
Proof.
  destruct (init_registers 0 1 {| components := []; telemetry_publisher := ∅ |}
              two_robots eq_refl) as (m' & Hrun & Hcalls & _ & _ & _ & Hattrs).
  exists m'. split; [exact Hrun|]. split; [exact Hcalls|].
  split; [|apply Hattrs; eexists; reflexivity].
  rewrite (__init___ok 0 1 {| components := []; telemetry_publisher := ∅ |}
             two_robots eq_refl) in Hrun.
  injection Hrun as <-. reflexivity.
Defined.

(** *** Abstract classes *)

Lemma base_execute :
  AdaptiveComponent_dict !! "execute"%string
  = Some {| __isabstractmethod__ := true; body := fun _ w => w |}.
Proof. reflexivity. Qed.

Lemma base_publish_telemetry :
  AdaptiveComponent_dict !! "publish_telemetry"%string
  = Some {| __isabstractmethod__ := false; body := fun _ w => w |}.
Proof. reflexivity. Qed.

Lemma elem_of_own_abstracts ns name :
  name ∈ own_abstracts ns <->
  exists mth, ns !! name = Some mth /\ __isabstractmethod__ mth = true.
Proof.
  unfold own_abstracts. rewrite elem_of_dom. split.
  - intros [mth H]. apply map_lookup_filter_Some in H. exists mth. exact H.
  - intros (mth & H1 & H2). exists mth. apply map_lookup_filter_Some. auto.
Qed.

Lemma base_abstracts name :
  name ∈ own_abstracts AdaptiveComponent_dict <-> name = "execute"%string.
Proof.
  rewrite elem_of_own_abstracts. split.
  - intros (mth & H1 & H2). unfold AdaptiveComponent_dict in H1.
    apply lookup_insert_Some in H1 as [[<- <-]|[_ H1]]; [discriminate|].
    apply lookup_singleton_Some in H1 as [<- _]. reflexivity.
  - intros ->. eexists. split; [apply base_execute|reflexivity].
Qed.

(** A class body without [execute] leaves the class abstract. *)
Lemma abstract_without_execute ns :
  ns !! "execute"%string = None -> __abstractmethods__ ns <> ∅.
Proof.
  intros Hno Hempty.
  assert (Hin : "execute"%string ∈ __abstractmethods__ ns).
  { unfold __abstractmethods__. apply elem_of_union. right.
    apply elem_of_filter. split; [|by apply base_abstracts].
    unfold getattr. rewrite Hno, base_execute. reflexivity. }
  rewrite Hempty in Hin. by apply not_elem_of_empty in Hin.
Qed.

(** So does a class body whose [execute] is itself marked abstract. *)
Lemma abstract_with_abstract_execute ns :
  __isabstractmethod__ <$> ns !! "execute"%string = Some true ->
  __abstractmethods__ ns <> ∅.
Proof.
  intros Habs Hempty.
  assert (Hin : "execute"%string ∈ __abstractmethods__ ns).
  { unfold __abstractmethods__. apply elem_of_union. left.
    apply elem_of_own_abstracts.
    destruct (ns !! "execute"%string) as [ex|]; [|discriminate].
    exists ex. split; [reflexivity|]. simpl in Habs. congruence. }
  rewrite Hempty in Hin. by apply not_elem_of_empty in Hin.
Qed.

(** A class body that defines [execute] and marks nothing abstract makes a
    concrete class. *)
Lemma concrete_with_execute ns :
  is_Some (ns !! "execute"%string) -> own_abstracts ns = ∅ ->
  __abstractmethods__ ns = ∅.
Proof.
  intros [ex Hex] Hown. unfold __abstractmethods__. rewrite Hown.
  apply set_eq. intros name. rewrite elem_of_union, elem_of_filter, base_abstracts.
  split; [|intros H; by apply not_elem_of_empty in H].
  intros [H|[Habs ->]]; [exact H|].
  unfold getattr in Habs. rewrite Hex in Habs. simpl in Habs.
  assert (Hin : "execute"%string ∈ own_abstracts ns).
  { apply elem_of_own_abstracts. exists ex. split; congruence. }
  rewrite Hown in Hin. exact Hin.
Qed.

Lemma getattr_hook ns name :
  name = "publish_telemetry"%string \/ name = "execute"%string ->
  is_Some (getattr ns name).
Proof.
  intros Hname. unfold getattr. destruct (ns !! name); [eauto|].
  destruct Hname as [-> | ->]; eexists; reflexivity.
Qed.

Lemma instantiate_ok classes cls ns robot r m :
  classes !! cls = Some ns ->
  __abstractmethods__ ns = ∅ ->
  robots (state m) !! robot = Some r ->
  instantiate classes cls robot m =
    Return (length (objects (state m)))
      (after_init (length (objects (state m))) robot
         {| state := set_objects (fun h => h ++ [{| ob_class := cls; ob_attrs := None |}])
                       (state m);
            calls := calls m |}).
Proof.
  intros Hcls Habs Hr. unfold instantiate. rewrite Hcls.
  rewrite bool_decide_true by exact Habs.
  unfold bind at 1. unfold gets at 1.
  unfold bind at 1. unfold modify at 1.
  erewrite bind_Return; [reflexivity|].
  eapply __init___ok. simpl. exact Hr.
Qed.

Lemma call_method_ok classes self name cls attrs0 ns mth m :
  objects (state m) !! self = Some {| ob_class := cls; ob_attrs := attrs0 |} ->
  classes !! cls = Some ns ->
  getattr ns name = Some mth ->
  call_method classes self name m
  = Return tt {| state := body mth self (state m); calls := calls m |}.
Proof.
  intros Ho Hcls Hm. unfold call_method, bind, gets, modify.
  rewrite Ho. simpl. rewrite Hcls, Hm. reflexivity.
Qed.

(** C7: a subclass whose class body has no [execute], or only an abstract
    one, cannot be instantiated: the call of the class raises [TypeError] and
    leaves the machine as it was, so no object exists on which [execute] could
    be invoked; a subclass that defines [execute] and marks no method abstract
    is instantiated, registered and initialised, and [execute] can be called
    on the instance. *)
Theorem instantiate_needs_execute
    (classes : gmap string (gmap string method)) (cls : string)
    (ns : gmap string method) (robot : ref) (m : machine) :
  classes !! cls = Some ns ->
  (ns !! "execute"%string = None
   \/ __isabstractmethod__ <$> ns !! "execute"%string = Some true ->
   instantiate classes cls robot m = Raise TypeError m)
  /\ (forall r,
        is_Some (ns !! "execute"%string) -> own_abstracts ns = ∅ ->
        robots (state m) !! robot = Some r ->
        let self := length (objects (state m)) in
        exists m',
          instantiate classes cls robot m = Return self m'
          /\ objects (state m') !! self
             = Some {| ob_class := cls; ob_attrs := Some (fresh_attrs robot) |}
          /\ robots (state m') !! robot = Some (add_to self r)
          /\ exists m'', execute classes self m' = Return tt m'').
Proof.
  intros Hcls. split.
  - intros Hno. unfold instantiate. rewrite Hcls.
    rewrite bool_decide_false; [reflexivity|].
    destruct Hno as [Hno|Habs]; [by apply abstract_without_execute|].
    by apply abstract_with_abstract_execute.
  - intros r Hex Hown Hr self.
    pose proof (concrete_with_execute ns Hex Hown) as Habs.
    eexists. split; [apply (instantiate_ok _ _ _ _ _ _ Hcls Habs Hr)|].
    assert (Hobj : objects (state (after_init self robot
                     {| state := set_objects
                          (fun h => h ++ [{| ob_class := cls; ob_attrs := None |}]) (state m);
                        calls := calls m |})) !! self
                   = Some {| ob_class := cls; ob_attrs := Some (fresh_attrs robot) |}).
    { simpl. rewrite list_lookup_alter_eq. subst self.
      rewrite lookup_snoc_length. reflexivity. }
    split; [exact Hobj|].
    split.
    + simpl. rewrite list_lookup_alter_eq, Hr. reflexivity.
    + destruct (getattr_hook ns "execute" (or_intror eq_refl)) as [mth Hm].
      eexists. unfold execute. eapply call_method_ok; eauto.
Qed.

Lemma own_abstracts_empty ns :
  (forall name mth, ns !! name = Some mth -> __isabstractmethod__ mth = false) ->
  own_abstracts ns = ∅.
Proof.
  intros H. apply set_eq. intros name. rewrite elem_of_own_abstracts.
  split; [|intros Hin; by apply not_elem_of_empty in Hin].
  intros (mth & H1 & H2). rewrite (H _ _ H1) in H2. discriminate.
Qed.

Lemma one_component_constructed :
  instantiate demo_classes "Drive" 0 one_robot = Return 0 one_component.
Proof. vm_compute. reflexivity. Qed.

Lemma instantiate_needs_execute_witness :
  instantiate demo_classes "Idle" 0 one_robot = Raise TypeError one_robot
  /\ exists m', instantiate demo_classes "Drive" 0 one_robot = Return 0 m'
                /\ components <$> robots (state m') !! 0 = Some [0].
Proof.
  split.
  - eapply (instantiate_needs_execute demo_classes "Idle" _ 0 one_robot);
      [reflexivity | left; reflexivity].
  - edestruct (instantiate_needs_execute demo_classes "Drive" _ 0 one_robot eq_refl)
      as [_ Hok].
    destruct (Hok {| components := []; telemetry_publisher := ∅ |})
      as (m' & Hrun & _ & Hreg & _).
    + eexists; reflexivity.
    + apply own_abstracts_empty. intros name mth Hl.
      apply lookup_singleton_Some in Hl as [_ <-]. reflexivity.
    + reflexivity.
    + exists m'. split; [exact Hrun|]. rewrite Hreg. reflexivity.
Defined.

(** *** The cycle *)

Lemma quiet_modify f :
  (forall w, objects (f w) = objects w) -> quiet (modify f).
Proof. intros Hf m. eexists. split; [reflexivity|]. split; [reflexivity|apply Hf]. Qed.

Lemma quiet_bind (c k : M unit) : quiet c -> quiet k -> quiet (c ;; k).
Proof.
  intros Hc Hk m. destruct (Hc m) as (m1 & E1 & C1 & O1).
  destruct (Hk m1) as (m2 & E2 & C2 & O2).
  exists m2. rewrite (bind_Return _ _ _ _ _ E1). split; [exact E2|].
  split; congruence.
Qed.

Lemma quiet_TunableValue_update t : quiet (TunableValue_update t).
Proof. apply quiet_modify. reflexivity. Qed.

Lemma quiet_update_from_tunables p :
  quiet (TunablePIDController_update_from_tunables p).
Proof.
  intros m. unfold TunablePIDController_update_from_tunables.
  unfold bind at 1. unfold gets at 1.
  destruct (pid_controllers (state m) !! p) as [c|].
  - apply quiet_bind; [apply quiet_TunableValue_update|].
    apply quiet_bind; [apply quiet_TunableValue_update|].
    apply quiet_bind; [apply quiet_TunableValue_update|].
    apply quiet_modify. reflexivity.
  - exists m. auto.
Qed.

Lemma for_each_log {A} (l : list A) (ev : A -> call) (g : A -> M unit) :
  (forall x, quiet (g x)) ->
  forall m, exists m',
    for_each l (fun x => log (ev x) ;; g x) m = Return tt m'
    /\ calls m' = calls m ++ (ev <$> l)
    /\ objects (state m') = objects (state m).
Proof.
  intros Hg. induction l as [|x l IH]; intros m; simpl.
  - exists m. rewrite app_nil_r. auto.
  - unfold bind at 1. unfold bind at 1. unfold log at 1.
    destruct (Hg x {| state := state m; calls := calls m ++ [ev x] |})
      as (m1 & E1 & C1 & O1).
    rewrite E1. destruct (IH m1) as (m2 & E2 & C2 & O2).
    exists m2. split; [exact E2|]. split.
    + rewrite C2, C1. simpl. rewrite <- app_assoc. reflexivity.
    + rewrite O2, O1. reflexivity.
Qed.

Lemma attrs_of_object m self cls c :
  objects (state m) !! self = Some {| ob_class := cls; ob_attrs := Some c |} ->
  attrs_of m self = Some c.
Proof. unfold attrs_of. intros ->. reflexivity. Qed.

Lemma alive_same_objects classes w w' other :
  objects w' = objects w -> alive classes w other -> alive classes w' other.
Proof. unfold alive. intros ->. auto. Qed.

Lemma call_hook_alive classes self name m :
  hooks_keep_alive classes ->
  name = "publish_telemetry"%string \/ name = "execute"%string ->
  alive classes (state m) self ->
  exists m',
    call_method classes self name m = Return tt m'
    /\ calls m' = calls m
    /\ forall other, alive classes (state m) other -> alive classes (state m') other.
Proof.
  intros Hhooks Hname (cls & c & ns & Ho & Hcls).
  destruct (getattr_hook ns name Hname) as [mth Hm].
  eexists. split; [eapply call_method_ok; eauto|].
  split; [reflexivity|].
  intros other Halive. simpl. eapply Hhooks; eauto.
Qed.

Lemma for_each_update ts : forall m,
  for_each ts (fun t => log (CallUpdate t) ;; TunableValue_update t) m
  = Return tt
      {| state := set_tunable_values (refreshed (network_tables (state m)) ts) (state m);
         calls := calls m ++ (CallUpdate <$> ts) |}.
Proof.
  induction ts as [|t ts IH]; intros m.
  - simpl. unfold ret. rewrite app_nil_r. destruct m as [[] ?]. reflexivity.
  - simpl. unfold bind at 1. unfold bind at 1. unfold log at 1.
    unfold TunableValue_update at 1. unfold modify at 1.
    rewrite IH. simpl. rewrite <- app_assoc. reflexivity.
Qed.

Lemma update_tunable_constants_run self c m :
  attrs_of m self = Some c ->
  update_tunable_constants self m
  = Return tt
      {| state := set_tunable_values
                    (refreshed (network_tables (state m)) (_tunables c)) (state m);
         calls := calls m ++ (CallUpdate <$> _tunables c) |}.
Proof.
  intros Hc. unfold update_tunable_constants.
  rewrite (bind_Return _ _ _ _ _ (attrs_Some _ _ _ Hc)). apply for_each_update.
Qed.

Lemma update_from_tunables_run p m :
  TunablePIDController_update_from_tunables p m
  = Return tt {| state := update_from_tunables_state p (state m); calls := calls m |}.
Proof.
  unfold TunablePIDController_update_from_tunables, update_from_tunables_state.
  unfold bind at 1. unfold gets at 1.
  destruct (pid_controllers (state m) !! p) as [c|].
  - reflexivity.
  - destruct m. reflexivity.
Qed.

Lemma for_each_update_pids ps : forall m,
  for_each ps (fun p => log (CallUpdateFromTunables p) ;;
                        TunablePIDController_update_from_tunables p) m
  = Return tt {| state := pids_refreshed ps (state m);
                 calls := calls m ++ (CallUpdateFromTunables <$> ps) |}.
Proof.
  induction ps as [|p ps IH]; intros m.
  - simpl. unfold ret. rewrite app_nil_r. destruct m. reflexivity.
  - simpl. unfold bind at 1. unfold bind at 1. unfold log at 1.
    rewrite update_from_tunables_run. rewrite IH. simpl.
    rewrite <- app_assoc. reflexivity.
Qed.

Lemma update_tunable_pids_run self c m :
  attrs_of m self = Some c ->
  update_tunable_pids self m
  = Return tt {| state := pids_refreshed (_tunable_pids c) (state m);
                 calls := calls m ++ (CallUpdateFromTunables <$> _tunable_pids c) |}.
Proof.
  intros Hc. unfold update_tunable_pids.
  rewrite (bind_Return _ _ _ _ _ (attrs_Some _ _ _ Hc)). apply for_each_update_pids.
Qed.

Lemma objects_update_from_tunables_state p w :
  objects (update_from_tunables_state p w) = objects w.
Proof.
  unfold update_from_tunables_state.
  destruct (pid_controllers w !! p); reflexivity.
Qed.

Lemma objects_pids_refreshed ps : forall w, objects (pids_refreshed ps w) = objects w.
Proof.
  induction ps as [|p ps IH]; intros w; [reflexivity|].
  change (pids_refreshed (p :: ps) w)
    with (pids_refreshed ps (update_from_tunables_state p w)).
  rewrite IH. apply objects_update_from_tunables_state.
Qed.

Lemma objects_after_updates c w : objects (after_updates c w) = objects w.
Proof. unfold after_updates. rewrite objects_pids_refreshed. reflexivity. Qed.

Lemma call_hook_run classes self name mth m :
  hook_of classes (state m) self name = Some mth ->
  call_method classes self name m
  = Return tt {| state := body mth self (state m); calls := calls m |}.
Proof.
  unfold hook_of, call_method, bind, gets, modify.
  destruct (objects (state m) !! self) as [o|]; [|discriminate]. simpl.
  destruct (classes !! ob_class o) as [ns|]; [|discriminate].
  intros ->. reflexivity.
Qed.

Lemma hook_of_alive classes w self name :
  name = "publish_telemetry"%string \/ name = "execute"%string ->
  alive classes w self -> is_Some (hook_of classes w self name).
Proof.
  intros Hname (cls & c & ns & Ho & Hcls). unfold hook_of.
  rewrite Ho. simpl. rewrite Hcls. by apply getattr_hook.
Qed.

(** A pass, step by step: the machine it leaves when the two hooks
    resolve. *)
Lemma run_component_run classes self c pt ex m :
  attrs_of m self = Some c ->
  hook_of classes (after_updates c (state m)) self "publish_telemetry" = Some pt ->
  hook_of classes (body pt self (after_updates c (state m))) self "execute" = Some ex ->
  run_component classes self m
  = Return tt {| state := body ex self (body pt self (after_updates c (state m)));
                 calls := calls m ++ pass self (_tunables c) (_tunable_pids c) |}.
Proof.
  intros Hc Hpt Hex. unfold run_component.
  unfold bind at 1. unfold log at 1.
  set (ma := {| state := state m; calls := _ |}).
  assert (Ha : attrs_of ma self = Some c) by exact Hc.
  unfold bind at 1. rewrite (update_tunable_constants_run self c ma Ha).
  unfold bind at 1. unfold log at 1.
  set (mb := {| state := _; calls := _ |}).
  assert (Hb : attrs_of mb self = Some c) by exact Hc.
  unfold bind at 1. rewrite (update_tunable_pids_run self c mb Hb).
  unfold bind at 1. unfold log at 1.
  set (mc := {| state := _; calls := _ |}).
  unfold bind at 1. unfold publish_telemetry.
  rewrite (call_hook_run classes self "publish_telemetry" pt mc Hpt).
  unfold bind at 1. unfold log at 1.
  set (md := {| state := _; calls := _ |}).
  unfold execute. rewrite (call_hook_run classes self "execute" ex md Hex).
  subst md mc mb ma. cbn [state calls]. unfold pass.
  rewrite <- !app_assoc. reflexivity.
Qed.

Lemma alive_attrs classes w self :
  alive classes w self -> exists c, objects w !! self ≫= ob_attrs = Some c.
Proof. intros (cls & c & ns & Ho & _). exists c. rewrite Ho. reflexivity. Qed.

Lemma run_component_alive classes self m :
  hooks_keep_alive classes ->
  alive classes (state m) self ->
  exists c pt ex,
    attrs_of m self = Some c
    /\ hook_of classes (after_updates c (state m)) self "publish_telemetry" = Some pt
    /\ hook_of classes (body pt self (after_updates c (state m))) self "execute" = Some ex
    /\ forall other, alive classes (state m) other ->
         alive classes (body ex self (body pt self (after_updates c (state m)))) other.
Proof.
  intros Hhooks Halive.
  destruct (alive_attrs _ _ _ Halive) as [c Hc]. exists c.
  assert (Hkeep : forall other, alive classes (state m) other ->
                    alive classes (after_updates c (state m)) other).
  { intros other. apply alive_same_objects, objects_after_updates. }
  assert (Hstep : forall w name mth,
            hook_of classes w self name = Some mth ->
            forall other, alive classes w other -> alive classes (body mth self w) other).
  { intros w name mth Hm other Hother. unfold hook_of in Hm.
    destruct (objects w !! self) as [o|]; [|discriminate].
    destruct (classes !! ob_class o) as [ns|] eqn:Hcls; [|discriminate].
    eapply Hhooks; eauto. }
  destruct (hook_of_alive classes _ self "publish_telemetry" (or_introl eq_refl)
              (Hkeep _ Halive)) as [pt Hpt].
  destruct (hook_of_alive classes _ self "execute" (or_intror eq_refl)
              (Hstep _ _ _ Hpt _ (Hkeep _ Halive))) as [ex Hex].
  exists pt, ex. split; [exact Hc|]. split; [exact Hpt|]. split; [exact Hex|].
  intros other Hother. eapply Hstep; [exact Hex|].
  eapply Hstep; [exact Hpt|]. by apply Hkeep.
Qed.

Lemma for_each_run_component classes (l : list ref) : forall m,
  hooks_keep_alive classes ->
  (forall self, self ∈ l -> alive classes (state m) self) ->
  exists m' passes,
    for_each l (run_component classes) m = Return tt m'
    /\ passes_from classes l m m'
    /\ calls m' = calls m ++ concat passes
    /\ Forall2 (fun self tr => exists ts ps, tr = pass self ts ps) l passes.
Proof.
  induction l as [|self l IH]; intros m Hhooks Hall; simpl.
  - exists m, []. simpl. rewrite app_nil_r. repeat split; constructor.
  - destruct (run_component_alive classes self m Hhooks)
      as (c & pt & ex & Hc & Hpt & Hex & Hkeep); [apply Hall, list_elem_of_here|].
    pose proof (run_component_run classes self c pt ex m Hc Hpt Hex) as E1.
    set (m1 := {| state := _; calls := _ |}) in E1.
    destruct (IH m1 Hhooks) as (m2 & passes & E2 & P2 & C2 & F2).
    { intros other Hin. apply Hkeep, Hall. by apply list_elem_of_further. }
    exists m2, (pass self (_tunables c) (_tunable_pids c) :: passes).
    rewrite (bind_Return _ _ _ _ _ E1). split; [exact E2|]. split.
    + econstructor; [exact E1 | exact P2].
    + split.
      * rewrite C2. simpl. rewrite <- app_assoc. reflexivity.
      * constructor; [eauto | exact F2].
Qed.

(** C5: a pass of the scheduler over an initialised component runs, in this
    order and nothing else: [update_tunable_constants], which calls [update()]
    on every owned tunable in the order of the collection;
    [update_tunable_pids], which calls [update_from_tunables()] on every owned
    controller in the order of the collection; [publish_telemetry];
    [execute].  The log of the pass lists these calls in this order, and the
    machine it leaves is the one the four steps make in this order: the owned
    tunables updated, then the owned controllers, then the body of
    [publish_telemetry] run on that, then the body of [execute].  A cycle is
    one such pass per registered component, in the order of registration,
    each starting where the pass before ended. *)
Theorem lifecycle_order (classes : gmap string (gmap string method)) :
  hooks_keep_alive classes ->
  (forall self cls c ns m,
     objects (state m) !! self = Some {| ob_class := cls; ob_attrs := Some c |} ->
     classes !! cls = Some ns ->
     let w2 := pids_refreshed (_tunable_pids c)
                 (constants_refreshed (_tunables c) (state m)) in
     exists pt ex,
       getattr ns "publish_telemetry" = Some pt
       /\ hook_of classes (body pt self w2) self "execute" = Some ex
       /\ run_component classes self m
          = Return tt
              {| state := body ex self (body pt self w2);
                 calls := calls m
                   ++ [CallMethod self "update_tunable_constants"]
                   ++ (CallUpdate <$> _tunables c)
                   ++ [CallMethod self "update_tunable_pids"]
                   ++ (CallUpdateFromTunables <$> _tunable_pids c)
                   ++ [CallMethod self "publish_telemetry"; CallMethod self "execute"] |})
  /\ (forall self c m,
        attrs_of m self = Some c ->
        update_tunable_constants self m
        = Return tt
            {| state := set_tunable_values
                          (refreshed (network_tables (state m)) (_tunables c)) (state m);
               calls := calls m ++ (CallUpdate <$> _tunables c) |}
        /\ update_tunable_pids self m
           = Return tt
               {| state := pids_refreshed (_tunable_pids c) (state m);
                  calls := calls m ++ (CallUpdateFromTunables <$> _tunable_pids c) |})
  /\ (forall robot r m,
        robots (state m) !! robot = Some r ->
        (forall self, self ∈ components r -> alive classes (state m) self) ->
        exists m' passes,
          cycle classes robot m = Return tt m'
          /\ passes_from classes (components r) m m'
          /\ calls m' = calls m ++ concat passes
          /\ Forall2 (fun self tr => exists ts ps, tr = pass self ts ps)
               (components r) passes).
Proof.
  intros Hhooks. split; [|split].
  - intros self cls c ns m Ho Hcls w2.
    assert (Halive : alive classes (state m) self) by (exists cls, c, ns; auto).
    destruct (run_component_alive classes self m Hhooks Halive)
      as (c' & pt & ex & Hc & Hpt & Hex & _).
    assert (c' = c) as ->.
    { unfold attrs_of in Hc. rewrite Ho in Hc. simpl in Hc. congruence. }
    exists pt, ex. split.
    + unfold hook_of in Hpt. rewrite objects_after_updates, Ho in Hpt.
      simpl in Hpt. rewrite Hcls in Hpt. exact Hpt.
    + split; [exact Hex|].
      exact (run_component_run classes self c pt ex m Hc Hpt Hex).
  - intros self c m Hc. split.
    + by apply update_tunable_constants_run.
    + by apply update_tunable_pids_run.
  - intros robot r m Hr Hall. unfold cycle.
    unfold bind at 1. unfold gets at 1. rewrite Hr.
    apply for_each_run_component; assumption.
Qed.

Lemma hooks_keep_objects_alive classes :
  (forall cls ns name mth,
     classes !! cls = Some ns -> getattr ns name = Some mth ->
     forall self w, objects (body mth self w) = objects w) ->
  hooks_keep_alive classes.
Proof.
  intros H cls ns name mth Hcls Hm self w other Halive.
  eapply alive_same_objects; [eapply H; eauto | exact Halive].
Qed.

Lemma demo_classes_keep_alive : hooks_keep_alive demo_classes.
Proof.
  apply hooks_keep_objects_alive.
  intros cls ns name mth Hcls Hm self w.
  assert (Hbase : forall mth', AdaptiveComponent_dict !! name = Some mth' ->
                    objects (body mth' self w) = objects w).
  { intros mth' Hb. unfold AdaptiveComponent_dict in Hb.
    apply lookup_insert_Some in Hb as [[_ <-]|[_ Hb]]; [reflexivity|].
    apply lookup_singleton_Some in Hb as [_ <-]. reflexivity. }
  unfold demo_classes in Hcls.
  apply lookup_insert_Some in Hcls as [[_ <-]|[_ Hcls]].
  - unfold getattr in Hm.
    destruct (_ !! name) as [own|] eqn:Hown; [|by apply Hbase].
    injection Hm as <-.
    apply lookup_singleton_Some in Hown as [_ <-]. reflexivity.
  - apply lookup_singleton_Some in Hcls as [_ <-].
    unfold getattr in Hm.
    destruct (_ !! name) as [own|] eqn:Hown; [|by apply Hbase].
    injection Hm as <-.
    apply lookup_singleton_Some in Hown as [_ <-]. reflexivity.
Qed.

(** A pass over the component of [equipped_with_store], of class [Drive]:
    the four steps are logged in order, the owned tunable [Drive/speed] has
    taken the store's [7.5], and [execute] has set its flag. *)
Lemma lifecycle_order_witness :
  exists m',
    run_component demo_classes 0 equipped_with_store = Return tt m'
    /\ calls m' =
         [CallMethod 0 "update_tunable_constants"; CallUpdate 0; CallUpdate 4;
          CallMethod 0 "update_tunable_pids"; CallUpdateFromTunables 0;
          CallMethod 0 "publish_telemetry"; CallMethod 0 "execute"]
    /\ tv_value <$> tunable_values (state m') !! 0 = Some (VFloat 7.5)
    /\ network_tables (state m') !! "ran"%string = Some (VBool true).
Proof.
  destruct (lifecycle_order demo_classes demo_classes_keep_alive) as [Hpass _].
  destruct (Hpass 0 "Drive"%string
              {| _robot := 0; _tunables := [0; 4]; _tunable_pids := [0] |}
              ({[ "execute"%string :=
                    {| __isabstractmethod__ := false;
                       body := fun _ w =>
                         {| tunable_values := tunable_values w;
                            pid_controllers := pid_controllers w;
                            objects := objects w;
                            robots := robots w;
                            network_tables :=
                              <["ran"%string := VBool true]> (network_tables w) |} |} ]})
              equipped_with_store)
    as (pt & ex & Hpt & Hex & Hrun).
  - vm_compute. reflexivity.
  - reflexivity.
  - vm_compute in Hpt. injection Hpt as <-.
    vm_compute in Hex. injection Hex as <-.
    eexists. split; [exact Hrun|].
    repeat split; vm_compute; reflexivity.
Defined.

End ComponentSpec.

(** ** Further facts on binary64 arithmetic *)

Module FloatFacts.

Import Binary64.
Local Open Scope float_scope.

Lemma is_finite_not_nan (x : float) : is_finite x = true -> is_nan x = false.
Proof.
  unfold is_finite. destruct (is_nan x); [discriminate | reflexivity].
Qed.

Lemma eqb_leb (a b : float) : (a =? b) = true -> (a <=? b) = true.
Proof.
  rewrite FloatAxioms.eqb_spec, FloatAxioms.leb_spec. unfold SFeqb, SFleb.
  destruct (SFcompare (Prim2SF a) (Prim2SF b)) as [[]|]; congruence.
Qed.

Lemma ltb_leb (a b : float) : (a <? b) = true -> (a <=? b) = true.
Proof.
  rewrite FloatAxioms.ltb_spec, FloatAxioms.leb_spec. unfold SFltb, SFleb.
  destruct (SFcompare (Prim2SF a) (Prim2SF b)) as [[]|]; congruence.
Qed.

Lemma SFcompare_refl (z : spec_float) :
  SFfinite z = true -> SFcompare z z = Some Eq.
Proof.
  destruct z as [s|s| |s m e]; simpl; try discriminate; intros _; [reflexivity|].
  rewrite Z.compare_refl.
  change (PosDef.Pos.compare_cont Eq m m) with (Pos.compare m m).
  rewrite Pos.compare_refl. destruct s; reflexivity.
Qed.

Lemma leb_refl (x : float) : is_finite x = true -> (x <=? x) = true.
Proof.
  intros Hx. rewrite FloatAxioms.leb_spec. unfold SFleb.
  rewrite (SFcompare_refl _ (FloatOrder.is_finite_SFfinite x Hx)). reflexivity.
Qed.

(** The difference of a finite number with itself is [+0.0]. *)
Lemma sub_diag (x : float) : is_finite x = true -> x - x = 0.
Proof.
  intros Hx. apply Prim2SF_inj. rewrite FloatAxioms.sub_spec.
  change (Prim2SF 0) with (S754_zero false).
  pose proof (FloatOrder.is_finite_SFfinite x Hx) as Hf.
  unfold SF64sub, SFsub.
  destruct (Prim2SF x) as [s|s| |s m e]; try discriminate.
  - destruct s; reflexivity.
  - rewrite Z.sub_diag. reflexivity.
Qed.

(** [+0.0] divided by a positive number is [+0.0]. *)
Lemma zero_div_pos (d : float) : (0 <? d) = true -> 0 / d = 0.
Proof.
  intros Hd. apply Prim2SF_inj. rewrite FloatAxioms.div_spec.
  rewrite FloatAxioms.ltb_spec in Hd.
  change (Prim2SF 0) with (S754_zero false) in *.
  unfold SFltb, SFcompare in Hd. unfold SF64div, SFdiv.
  destruct (Prim2SF d) as [s|s| |s m e]; try discriminate;
    destruct s; try discriminate; reflexivity.
Qed.

End FloatFacts.

(** ** More on the velocity estimator *)

Module EncoderMore.

Import Encoder.
Local Open Scope float_scope.

Lemma guard_taken conv now rotations self :
  (now - prev_time self <=? 0) = true ->
  get_velocity conv now rotations self = (0, self).
Proof. unfold get_velocity. intros ->. reflexivity. Qed.

Lemma guard_passed conv now rotations self :
  (now - prev_time self <=? 0) = false ->
  get_velocity conv now rotations self =
    (unwrap (get_position conv rotations None - prev_angle self)
       / (now - prev_time self),
     {| prev_time := now; prev_angle := get_position conv rotations None |}).
Proof. unfold get_velocity. intros ->. reflexivity. Qed.

(** X1: the division of [get_velocity] is never by zero (which Python
    answers with [ZeroDivisionError]): when [dt] is [0.0] or [-0.0] the method
    has returned [0.0] through the guard, with the state as it was. *)
Theorem get_velocity_no_zero_division conv now rotations self :
  (now - prev_time self =? 0) = true ->
  get_velocity conv now rotations self = (0, self).
Proof. intros Hz. apply guard_taken, FloatFacts.eqb_leb, Hz. Qed.

Lemma get_velocity_no_zero_division_witness :
  (1.5 - 1.5 =? 0) = true
  /\ get_velocity rotations_to_radians_spec 1.5 0.25
       {| prev_time := 1.5; prev_angle := 6 |}
     = (0, {| prev_time := 1.5; prev_angle := 6 |}).
Proof.
  split; [vm_compute; reflexivity|].
  apply get_velocity_no_zero_division. vm_compute; reflexivity.
Defined.

(** X2: with a finite clock, a second call at the timestamp of the call
    before it returns [0.0] and changes nothing, whatever the two readings
    are; so does the first call after construction when the clock has not
    moved since. *)
Theorem get_velocity_same_timestamp conv now r0 r1 r2 self :
  is_finite now = true ->
  (let first := snd (get_velocity conv now r1 self) in
   get_velocity conv now r2 first = (0, first))
  /\ get_velocity conv now r1 (__init__ conv now r0) = (0, __init__ conv now r0).
Proof.
  intros Hfin.
  assert (Hself : (now - now <=? 0) = true).
  { apply FloatOrder.sub_nonpos; [exact Hfin | exact Hfin |].
    apply FloatFacts.leb_refl, Hfin. }
  split.
  - destruct (now - prev_time self <=? 0) eqn:Hdt.
    + rewrite (guard_taken _ _ _ _ Hdt). simpl. apply guard_taken, Hdt.
    + rewrite (guard_passed _ _ _ _ Hdt). simpl. apply guard_taken. exact Hself.
  - apply guard_taken. exact Hself.
Qed.

Lemma get_velocity_same_timestamp_witness :
  get_velocity rotations_to_radians_spec 0.02 0.75
    (snd (get_velocity rotations_to_radians_spec 0.02 0.5
            {| prev_time := 0; prev_angle := 6 |}))
  = (0, {| prev_time := 0.02; prev_angle := 0.5 * (2 * pi) |}).
Proof.
  destruct (get_velocity_same_timestamp rotations_to_radians_spec 0.02 0 0.5 0.75
              {| prev_time := 0; prev_angle := 6 |} eq_refl) as [H _].
  cbv zeta in H. rewrite H. vm_compute. reflexivity.
Defined.

(** X3: a sensor that has not moved reads zero: when the current angle is
    the finite [prev_angle] and the clock has advanced, the velocity is
    exactly [0.0] and the state moves on to the new timestamp. *)
Theorem get_velocity_stationary conv now rotations self :
  let a := get_position conv rotations None in
  (0 <? now - prev_time self) = true ->
  is_finite a = true ->
  prev_angle self = a ->
  get_velocity conv now rotations self = (0, {| prev_time := now; prev_angle := a |}).
Proof.
  intros a Hdt Hfin Hsame.
  rewrite (guard_passed _ _ _ _ (FloatOrder.ltb_not_geb _ _ Hdt)).
  fold a. rewrite Hsame, (FloatFacts.sub_diag a Hfin).
  change (unwrap 0) with 0.
  rewrite (FloatFacts.zero_div_pos _ Hdt). reflexivity.
Qed.

Lemma get_velocity_stationary_witness :
  get_velocity rotations_to_radians_spec 0.02 0.25
    {| prev_time := 0; prev_angle := 0.25 * (2 * pi) |}
  = (0, {| prev_time := 0.02; prev_angle := 0.25 * (2 * pi) |}).
Proof.
  apply (get_velocity_stationary rotations_to_radians_spec 0.02 0.25
           {| prev_time := 0; prev_angle := 0.25 * (2 * pi) |});
    vm_compute; reflexivity.
Defined.

(** X4: with finite timestamps the stored [prev_time] never moves back:
    on the guard path the object is kept as it is, and otherwise it becomes
    the current timestamp and angle, the timestamp being strictly later than
    the one it replaces. *)
Theorem prev_time_monotone conv now rotations self :
  is_finite now = true ->
  is_finite (prev_time self) = true ->
  let dt := now - prev_time self in
  let after := snd (get_velocity conv now rotations self) in
  (prev_time self <=? prev_time after) = true
  /\ ((dt <=? 0) = true -> after = self)
  /\ ((dt <=? 0) = false ->
      after = {| prev_time := now; prev_angle := get_position conv rotations None |}
      /\ (prev_time self <? now) = true
      /\ (prev_time self <? prev_time after) = true).
Proof.
  intros Hn Hp dt after.
  assert (Hlater : (dt <=? 0) = false -> (prev_time self <? now) = true).
  { intros Hdt.
    apply FloatOrder.not_leb_gtb; try (by apply FloatFacts.is_finite_not_nan).
    destruct (now <=? prev_time self) eqn:Hle; [|reflexivity].
    unfold dt in Hdt. rewrite (FloatOrder.sub_nonpos _ _ Hn Hp Hle) in Hdt.
    discriminate. }
  subst after. destruct (dt <=? 0) eqn:Hdt.
  - unfold dt in Hdt. rewrite (guard_taken _ _ _ _ Hdt). simpl.
    split; [apply FloatFacts.leb_refl, Hp|]. split; [reflexivity | discriminate].
  - unfold dt in Hdt. rewrite (guard_passed _ _ _ _ Hdt). simpl.
    split; [apply FloatFacts.ltb_leb; by apply Hlater|].
    split; [discriminate|]. intros _.
    split; [reflexivity|]. split; by apply Hlater.
Qed.

Lemma prev_time_monotone_witness :
  snd (get_velocity rotations_to_radians_spec 1 0.75
         {| prev_time := 1.5; prev_angle := 0.125 |})
  = {| prev_time := 1.5; prev_angle := 0.125 |}
  /\ (1.5 <? prev_time (snd (get_velocity rotations_to_radians_spec 2 0.75
                               {| prev_time := 1.5; prev_angle := 0.125 |}))) = true.
Proof.
  split.
  - apply (prev_time_monotone rotations_to_radians_spec 1 0.75
             {| prev_time := 1.5; prev_angle := 0.125 |}); reflexivity.
  - apply (prev_time_monotone rotations_to_radians_spec 2 0.75
             {| prev_time := 1.5; prev_angle := 0.125 |}); reflexivity.
Defined.

End EncoderMore.

(** ** More on the component base class *)

Module ComponentMore.

Import Component Statements ComponentSpec.

(** *** Use before [__init__] *)

(** X5: on an object whose [__init__] has not run (a subclass constructor
    that uses [self] before [super().__init__]) every method of the base class
    that reads an attribute raises [AttributeError]: the two update steps and
    [publish_value] at once, with nothing changed; [tunable] after its tunable
    has been created; [tunablePID] after its three gain tunables and its
    controller have been created.  What they created stays in the stores,
    owned by no component; no component object, registry or log entry
    changes. *)
Theorem methods_before_init (self : ref) (m : machine) :
  attrs_of m self = None ->
  update_tunable_constants self m = Raise AttributeError m
  /\ update_tunable_pids self m = Raise AttributeError m
  /\ (forall directory v, publish_value self directory v m = Raise AttributeError m)
  /\ (forall directory dflt, directory <> EmptyString ->
        tunable self directory dflt m =
          Raise AttributeError
            {| state := set_tunable_values
                          (fun h => h ++ [new_tunable directory dflt]) (state m);
               calls := calls m |})
  /\ (forall gp gi gd directory period,
        valid_gains gp gi gd (default 0.02%float period) ->
        let dir := default "Tunables/PIDController"%string directory in
        let n := length (tunable_values (state m)) in
        exists m' snap,
          tunablePID self gp gi gd directory period m = Raise AttributeError m'
          /\ tunable_values (state m')
             = tunable_values (state m)
               ++ [new_tunable (dir +:+ "/kp") (VFloat gp);
                   new_tunable (dir +:+ "/ki") (VFloat gi);
                   new_tunable (dir +:+ "/kd") (VFloat gd)]
          /\ pid_controllers (state m')
             = pid_controllers (state m)
               ++ [{| kp := n; ki := S n; kd := S (S n);
                      period := default 0.02%float period; snapshot := snap |}]
          /\ objects (state m') = objects (state m)
          /\ robots (state m') = robots (state m)
          /\ network_tables (state m') = network_tables (state m)
          /\ calls m' = calls m).
Proof.
  intros Hnone. repeat apply conj.
  - unfold update_tunable_constants. apply bind_Raise, attrs_None, Hnone.
  - unfold update_tunable_pids. apply bind_Raise, attrs_None, Hnone.
  - intros directory v. unfold publish_value. apply bind_Raise, attrs_None, Hnone.
  - intros directory dflt Hne. unfold tunable.
    rewrite (bind_Return _ _ _ _ _ (TunableValue_new_ok _ _ _ Hne)).
    apply bind_Raise, attrs_None. exact Hnone.
  - intros gp gi gd directory period Hv dir n.
    apply valid_gains_pass in Hv. destruct Hv as (Hper & Hp & Hi & Hd).
    rewrite tunablePID_after_gains. fold dir. fold n.
    destruct (negative_default_gains dir gp gi gd (state m)) as (N1 & N2 & N3).
    fold n in N1, N2, N3.
    erewrite bind_Return; cycle 1.
    { apply TunablePIDController_new_ok; simpl; congruence. }
    unfold register_pid. eexists _, _. split.
    + apply bind_Raise, attrs_None. exact Hnone.
    + cbn [state calls tunable_values pid_controllers objects robots network_tables
           set_pid_controllers set_tunable_values].
      repeat split.
Qed.

Lemma methods_before_init_witness :
  update_tunable_constants 0 two_robots = Raise AttributeError two_robots
  /\ (exists m', tunable 0 "Drive/speed" (VFloat 5) two_robots = Raise AttributeError m'
                 /\ length (tunable_values (state m')) = 1)
  /\ exists m', tunablePID 0 1.5 0 0.25 None None two_robots = Raise AttributeError m'
                /\ length (tunable_values (state m')) = 3
                /\ length (pid_controllers (state m')) = 1
                /\ attrs_of m' 0 = None.
Proof.
  destruct (methods_before_init 0 two_robots eq_refl) as (H1 & _ & _ & H4 & H5).
  split; [exact H1|]. split.
  - eexists. split; [apply H4; discriminate | reflexivity].
  - destruct (H5 1.5 0 0.25 None None)%float
      as (m' & snap & Hrun & Htv & Hpid & Hobj & _).
    { repeat split; vm_compute; reflexivity. }
    exists m'. split; [exact Hrun|].
    rewrite Htv, Hpid. unfold attrs_of. rewrite Hobj.
    repeat split.
Defined.

(** *** What [update_tunable_constants] refreshes *)

Lemma resolve_idempotent nt t : resolve nt (resolve nt t) = resolve nt t.
Proof.
  unfold resolve. simpl. f_equal.
  destruct (nt !! tv_key t) as [v|]; [|reflexivity].
  destruct (same_type v (tv_default t)); reflexivity.
Qed.

Lemma refreshed_lookup nt ts : forall h t,
  refreshed nt ts h !! t
  = if decide (t ∈ ts) then resolve nt <$> h !! t else h !! t.
Proof.
  induction ts as [|a ts IH]; intros h t.
  - simpl. destruct (decide (t ∈ [])) as [Hin|_]; [|reflexivity].
    by apply elem_of_nil in Hin.
  - change (refreshed nt (a :: ts) h) with (refreshed nt ts (alter (resolve nt) a h)).
    rewrite IH. destruct (decide (t = a)) as [->|Hne].
    + rewrite list_lookup_alter_eq.
      destruct (decide (a ∈ a :: ts)) as [_|Hn];
        [|exfalso; apply Hn, list_elem_of_here].
      destruct (decide (a ∈ ts)); [|reflexivity].
      destruct (h !! a); [|reflexivity]. simpl. by rewrite resolve_idempotent.
    + rewrite list_lookup_alter_ne by congruence.
      destruct (decide (t ∈ ts)) as [Hin|Hnin];
        destruct (decide (t ∈ a :: ts)) as [Hin'|Hnin']; try reflexivity.
      * exfalso. apply Hnin'. by apply list_elem_of_further.
      * exfalso. apply elem_of_cons in Hin' as [?|?]; congruence.
Qed.

(** X6: on an initialised component [update_tunable_constants] always
    returns and applies [update()] to the tunables the component owns and to
    no other: each owned tunable becomes what one [update()] makes of it
    (with [update()] as the spec describes it: key and default kept; the
    default when the store has no entry; the entry when it has one of the
    default's type; never a value of another type), every other tunable is as
    it was, and components, controllers, registries and the store are
    untouched. *)
Theorem update_tunable_constants_refreshes (self : ref) (c : AdaptiveComponent) (m : machine) :
  attrs_of m self = Some c ->
  exists m',
    update_tunable_constants self m = Return tt m'
    /\ (forall t tv, t ∈ _tunables c -> tunable_values (state m) !! t = Some tv ->
          exists tv', tunable_values (state m') !! t = Some tv'
            /\ tv' = resolve (network_tables (state m)) tv
            /\ tv_key tv' = tv_key tv /\ tv_default tv' = tv_default tv
            /\ (network_tables (state m) !! tv_key tv = None ->
                tv_value tv' = tv_default tv)
            /\ (forall v, network_tables (state m) !! tv_key tv = Some v ->
                  same_type v (tv_default tv) = true -> tv_value tv' = v)
            /\ (same_type (tv_value tv) (tv_default tv) = true ->
                same_type (tv_value tv') (tv_default tv') = true))
    /\ (forall t, t ∉ _tunables c ->
          tunable_values (state m') !! t = tunable_values (state m) !! t)
    /\ objects (state m') = objects (state m)
    /\ pid_controllers (state m') = pid_controllers (state m)
    /\ robots (state m') = robots (state m)
    /\ network_tables (state m') = network_tables (state m).
Proof.
  intros Hc. eexists. split; [apply (update_tunable_constants_run _ c), Hc|].
  cbn [state tunable_values objects pid_controllers robots network_tables
       set_tunable_values].
  split; [|split; [|repeat split]].
  - intros t tv Hin Ht. rewrite refreshed_lookup, decide_True by exact Hin.
    rewrite Ht. eexists. split; [reflexivity|].
    split; [reflexivity|]. split; [reflexivity|]. split; [reflexivity|].
    unfold resolve. cbn [tv_value tv_default].
    split; [intros ->; reflexivity|].
    split.
    + intros v -> ->. reflexivity.
    + intros Hty. destruct (network_tables (state m) !! tv_key tv) as [v|].
      * destruct (same_type v (tv_default tv)) eqn:Hv; [exact Hv | exact Hty].
      * destruct (tv_default tv); reflexivity.
  - intros t Hnin. rewrite refreshed_lookup, decide_False by exact Hnin. reflexivity.
Qed.

Lemma update_tunable_constants_refreshes_witness :
  exists m',
    update_tunable_constants 0 equipped_with_store = Return tt m'
    /\ tv_value <$> tunable_values (state m') !! 0 = Some (VFloat 7.5)
    /\ tv_value <$> tunable_values (state m') !! 4 = Some (VBool true)
    /\ tv_value <$> tunable_values (state m') !! 1 = Some (VFloat 1.5).
Proof.
  destruct (update_tunable_constants_refreshes 0
              {| _robot := 0; _tunables := [0; 4]; _tunable_pids := [0] |}
              equipped_with_store) as (m' & Hrun & _).
  { vm_compute. reflexivity. }
  exists m'. split; [exact Hrun|].
  rewrite (update_tunable_constants_run 0
             {| _robot := 0; _tunables := [0; 4]; _tunable_pids := [0] |}) in Hrun
    by (vm_compute; reflexivity).
  injection Hrun as <-. repeat split; vm_compute; reflexivity.
Defined.

(** *** The gain tunables of a controller *)

(** X7: the three gain tunables [tunablePID] creates are held by the
    controller only: they are not appended to [_tunables], so the next
    [update_tunable_constants] makes no [update()] call on them and leaves
    them as they are. *)
Theorem gain_tunables_not_owned (self : ref) (c : AdaptiveComponent)
    (gp gi gd : float) (directory : option string) (period : option float)
    (m : machine) :
  attrs_of m self = Some c ->
  owns_existing m c ->
  valid_gains gp gi gd (default 0.02%float period) ->
  exists q m' ctl,
    tunablePID self gp gi gd directory period m = Return q m'
    /\ pid_controllers (state m') !! q = Some ctl
    /\ (forall g, g ∈ [Component.kp ctl; Component.ki ctl; Component.kd ctl] ->
          (g ∉ _tunables c) /\ is_Some (tunable_values (state m') !! g))
    /\ exists m'',
         update_tunable_constants self m' = Return tt m''
         /\ calls m'' = calls m' ++ (CallUpdate <$> _tunables c)
         /\ forall g, g ∈ [Component.kp ctl; Component.ki ctl; Component.kd ctl] ->
              tunable_values (state m'') !! g = tunable_values (state m') !! g.
Proof.
  intros Hc Hown Hv.
  set (dir := default "Tunables/PIDController"%string directory).
  set (n := length (tunable_values (state m))).
  assert (Hnot : forall g, g ∈ [n; S n; S (S n)] -> g ∉ _tunables c).
  { intros g Hg Hin. apply Hown in Hin. fold n in Hin.
    repeat (apply elem_of_cons in Hg as [->|Hg]; [lia|]).
    by apply elem_of_nil in Hg. }
  destruct (with_gains_lookup dir gp gi gd (tunable_values (state m))) as (L1 & L2 & L3).
  fold n in L1, L2, L3.
  eexists _, _, _. split; [apply (tunablePID_ok _ c); assumption|].
  unfold after_tunablePID. fold n. fold dir.
  cbn [state pid_controllers tunable_values set_objects set_pid_controllers
       set_tunable_values].
  split; [apply lookup_snoc_length|].
  cbn [Component.kp Component.ki Component.kd].
  split.
  - intros g Hg. split; [by apply Hnot|].
    repeat (apply elem_of_cons in Hg as [->|Hg]; [eauto|]).
    by apply elem_of_nil in Hg.
  - eexists. split.
    + apply (update_tunable_constants_run self
               {| _robot := _robot c; _tunables := _tunables c;
                  _tunable_pids := _tunable_pids c
                                   ++ [length (pid_controllers (state m))] |}).
      apply (attrs_of_alter_eq
               {| state := set_pid_controllers _ (set_tunable_values _ (state m));
                  calls := calls m |} _ _ _ c).
      exact Hc.
    + split; [reflexivity|].
      intros g Hg. cbn [state tunable_values set_objects set_pid_controllers
                        set_tunable_values _tunables].
      rewrite refreshed_lookup. rewrite decide_False by (by apply Hnot). reflexivity.
Qed.

Lemma gain_tunables_not_owned_witness :
  exists q m' m'',
    tunablePID 0 1.5 0 0.25 (Some "Drive/speed"%string) None equipped_with_store
      = Return q m'
    /\ update_tunable_constants 0 m' = Return tt m''
    /\ calls m'' = [CallUpdate 0; CallUpdate 4].
Proof.
  destruct (gain_tunables_not_owned 0
              {| _robot := 0; _tunables := [0; 4]; _tunable_pids := [0] |}
              1.5 0 0.25 (Some "Drive/speed"%string) None equipped_with_store)
    as (q & m' & ctl & Hrun & _ & _ & m'' & Hupd & Hcalls & _).
  - vm_compute. reflexivity.
  - intros t Ht. vm_compute.
    repeat (apply elem_of_cons in Ht as [->|Ht]; [lia|]).
    by apply elem_of_nil in Ht.
  - repeat split; vm_compute; reflexivity.
  - exists q, m', m''. split; [exact Hrun|]. split; [exact Hupd|].
    rewrite Hcalls.
    rewrite (tunablePID_ok 0 {| _robot := 0; _tunables := [0; 4]; _tunable_pids := [0] |})
      in Hrun; [|repeat split; vm_compute; reflexivity|vm_compute; reflexivity].
    injection Hrun as _ <-. reflexivity.
Defined.

(** X8: a call of [tunablePID] that the controller refuses has created its
    three gain tunables all the same (the arguments of the constructor are
    evaluated first): they stay in the store, owned by nothing, while no
    controller exists and no component, registry or log entry has changed. *)
Theorem refused_tunablePID_leaves_tunables (self : ref)
    (gp gi gd : float) (directory : option string) (period : option float)
    (m : machine) :
  invalid_gains gp gi gd (default 0.02%float period) ->
  exists m',
    tunablePID self gp gi gd directory period m = Raise ConfigurationError m'
    /\ length (tunable_values (state m')) = 3 + length (tunable_values (state m))
    /\ (tv_key <$> drop (length (tunable_values (state m))) (tunable_values (state m')))
       = [default "Tunables/PIDController"%string directory +:+ "/kp";
          default "Tunables/PIDController"%string directory +:+ "/ki";
          default "Tunables/PIDController"%string directory +:+ "/kd"]
    /\ pid_controllers (state m') = pid_controllers (state m)
    /\ objects (state m') = objects (state m)
    /\ robots (state m') = robots (state m)
    /\ calls m' = calls m.
Proof.
  intros Hbad. eexists. split; [apply tunablePID_invalid, Hbad|].
  cbn [state tunable_values pid_controllers objects robots calls set_tunable_values].
  unfold with_gains. repeat split.
  - rewrite length_app. simpl. lia.
  - rewrite drop_app_length. reflexivity.
Qed.

Lemma refused_tunablePID_leaves_tunables_witness :
  exists m',
    tunablePID 0 (-1) 0 0.25 None None one_component = Raise ConfigurationError m'
    /\ tv_key <$> tunable_values (state m')
       = ["Tunables/PIDController/kp"; "Tunables/PIDController/ki";
          "Tunables/PIDController/kd"]%string
    /\ attrs_of m' 0 = attrs_of one_component 0.
Proof.
  destruct (refused_tunablePID_leaves_tunables 0 (-1) 0 0.25 None None one_component)
    as (m' & Hrun & _ & Hkeys & _ & Hobj & _).
  { right; left. vm_compute; reflexivity. }
  exists m'. split; [exact Hrun|]. split; [exact Hkeys|].
  unfold attrs_of. rewrite Hobj. reflexivity.
Defined.

(** *** Creation order *)

Lemma tunable_each_run self l : forall c m,
  attrs_of m self = Some c ->
  Forall (fun kv => kv.1 <> EmptyString) l ->
  exists m',
    tunable_each self l m
      = Return (seq (length (tunable_values (state m))) (length l)) m'
    /\ attrs_of m' self
       = Some {| _robot := _robot c;
                 _tunables := _tunables c
                              ++ seq (length (tunable_values (state m))) (length l);
                 _tunable_pids := _tunable_pids c |}
    /\ length (tunable_values (state m')) = length (tunable_values (state m)) + length l.
Proof.
  induction l as [|[directory dflt] rest IH]; intros c m Hc Hkeys.
  - exists m. simpl. rewrite app_nil_r, Nat.add_0_r.
    destruct c. repeat split; [exact Hc].
  - apply Forall_cons in Hkeys as [Hkey Hrest]. simpl in Hkey.
    simpl tunable_each.
    rewrite (bind_Return _ _ _ _ _ (tunable_ok self c directory dflt m Hkey Hc)).
    set (n := length (tunable_values (state m))).
    set (m1 := {| state := _; calls := calls m |}).
    assert (Hc1 : attrs_of m1 self
                  = Some {| _robot := _robot c; _tunables := _tunables c ++ [n];
                            _tunable_pids := _tunable_pids c |}).
    { apply (attrs_of_alter_eq
               {| state := set_tunable_values _ (state m); calls := calls m |} _ _ _ c).
      exact Hc. }
    assert (Hlen : length (tunable_values (state m1)) = S n).
    { simpl. rewrite length_app. simpl. fold n. lia. }
    destruct (IH _ m1 Hc1 Hrest) as (m' & Hrun & Hattrs & Hlen').
    rewrite Hlen in Hrun, Hattrs, Hlen'.
    exists m'. rewrite (bind_Return _ _ _ _ _ Hrun). simpl.
    split; [reflexivity|]. split.
    + rewrite Hattrs. simpl. rewrite <- app_assoc. reflexivity.
    + lia.
Qed.

(** X9: tunables created one after another by [tunable] (with non-empty
    keys) are new, consecutive objects; the component's collection holds them
    after those it had, in the order of creation, and
    [update_tunable_constants] then updates old and new in exactly that
    order. *)
Theorem tunables_in_creation_order (self : ref) (c : AdaptiveComponent)
    (l : list (string * TunableType)) (m : machine) :
  attrs_of m self = Some c ->
  Forall (fun kv => kv.1 <> EmptyString) l ->
  let created := seq (length (tunable_values (state m))) (length l) in
  exists m',
    tunable_each self l m = Return created m'
    /\ (forall t, t ∈ created -> tunable_values (state m) !! t = None)
    /\ attrs_of m' self = Some {| _robot := _robot c;
                                  _tunables := _tunables c ++ created;
                                  _tunable_pids := _tunable_pids c |}
    /\ exists m'',
         update_tunable_constants self m' = Return tt m''
         /\ calls m'' = calls m' ++ (CallUpdate <$> (_tunables c ++ created)).
Proof.
  intros Hc Hkeys created.
  destruct (tunable_each_run self l c m Hc Hkeys) as (m' & Hrun & Hattrs & _).
  exists m'. split; [exact Hrun|]. split.
  - intros t Ht. apply elem_of_seq in Ht. apply lookup_ge_None. lia.
  - split; [exact Hattrs|].
    eexists. split; [apply (update_tunable_constants_run _ _ _ Hattrs)|reflexivity].
Qed.

Lemma tunables_in_creation_order_witness :
  exists m' m'',
    tunable_each 0 [("Drive/max"%string, VFloat 3); ("Drive/name"%string, VStr "left")]
      equipped_with_store = Return [5; 6] m'
    /\ update_tunable_constants 0 m' = Return tt m''
    /\ calls m'' = calls m' ++ [CallUpdate 0; CallUpdate 4; CallUpdate 5; CallUpdate 6].
Proof.
  destruct (tunables_in_creation_order 0
              {| _robot := 0; _tunables := [0; 4]; _tunable_pids := [0] |}
              [("Drive/max"%string, VFloat 3); ("Drive/name"%string, VStr "left")]
              equipped_with_store)
    as (m' & Hrun & _ & _ & m'' & Hupd & Hcalls).
  - vm_compute. reflexivity.
  - repeat constructor; discriminate.
  - exists m', m''. split; [exact Hrun|]. split; [exact Hupd | exact Hcalls].
Defined.

(** *** Telemetry *)

(** X10: [publish_value] on an initialised component makes one [put_value]
    call, with the directory and the value it was given, on the publisher of
    the robot the component was constructed with; the value is then what that
    publisher has under the directory, its other entries and the other robots
    are as before, and no component, tunable or registration changes. *)
Theorem publish_value_forwards (self : ref) (c : AdaptiveComponent) (r : AdaptiveRobot)
    (directory : string) (v : TunableType) (m : machine) :
  attrs_of m self = Some c ->
  robots (state m) !! _robot c = Some r ->
  exists m' r',
    publish_value self directory v m = Return tt m'
    /\ calls m' = calls m ++ [CallPutValue (_robot c) directory v]
    /\ robots (state m') !! _robot c = Some r'
    /\ telemetry_publisher r' !! directory = Some v
    /\ (forall other, other <> directory ->
          telemetry_publisher r' !! other = telemetry_publisher r !! other)
    /\ components r' = components r
    /\ (forall i, i <> _robot c -> robots (state m') !! i = robots (state m) !! i)
    /\ objects (state m') = objects (state m)
    /\ tunable_values (state m') = tunable_values (state m).
Proof.
  intros Hc Hr. eexists _, (put directory v r). split.
  - unfold publish_value. rewrite (bind_Return _ _ _ _ _ (attrs_Some _ _ _ Hc)).
    unfold bind at 1. unfold log at 1.
    unfold telemetry_put_value, bind, gets, modify. simpl. rewrite Hr. reflexivity.
  - cbn [state calls robots objects tunable_values set_robots].
    split; [reflexivity|].
    split; [rewrite list_lookup_alter_eq, Hr; reflexivity|].
    split; [apply lookup_insert_eq|].
    split; [intros other Hne; simpl; by apply lookup_insert_ne|].
    split; [reflexivity|].
    split; [intros i Hne; apply list_lookup_alter_ne; congruence|].
    split; reflexivity.
Qed.

Lemma publish_value_forwards_witness :
  exists m',
    publish_value 0 "Drive/left" (VFloat 0.5) one_component = Return tt m'
    /\ calls m' = [CallAddComponent 0 0; CallPutValue 0 "Drive/left" (VFloat 0.5)].
Proof.
  destruct (publish_value_forwards 0
              {| _robot := 0; _tunables := []; _tunable_pids := [] |}
              {| components := [0]; telemetry_publisher := ∅ |}
              "Drive/left" (VFloat 0.5) one_component eq_refl eq_refl)
    as (m' & r' & Hrun & Hcalls & _).
  exists m'. split; [exact Hrun | exact Hcalls].
Defined.

(** *** Construction order *)

Lemma instantiate_run classes cls ns robot r m :
  classes !! cls = Some ns ->
  __abstractmethods__ ns = ∅ ->
  robots (state m) !! robot = Some r ->
  exists m',
    instantiate classes cls robot m = Return (length (objects (state m))) m'
    /\ objects (state m') = objects (state m) ++ [instance_of robot cls]
    /\ robots (state m') = alter (add_to (length (objects (state m)))) robot (robots (state m))
    /\ calls m' = calls m ++ [CallAddComponent robot (length (objects (state m)))].
Proof.
  intros Hcls Habs Hr. eexists.
  split; [apply (instantiate_ok _ _ _ _ _ _ Hcls Habs Hr)|].
  cbn [state calls objects robots after_init set_objects set_robots].
  split; [|split; reflexivity].
  rewrite <- (Nat.add_0_r (length (objects (state m)))) at 1.
  rewrite alter_app_r. reflexivity.
Qed.

Lemma instantiate_each_run classes robot l : forall r m,
  concrete_classes classes l ->
  robots (state m) !! robot = Some r ->
  exists m',
    instantiate_each classes l robot m
      = Return (seq (length (objects (state m))) (length l)) m'
    /\ objects (state m') = objects (state m) ++ (instance_of robot <$> l)
    /\ robots (state m') !! robot
       = Some {| components := components r
                               ++ seq (length (objects (state m))) (length l);
                 telemetry_publisher := telemetry_publisher r |}
    /\ (forall i, i <> robot -> robots (state m') !! i = robots (state m) !! i)
    /\ calls m' = calls m
         ++ (CallAddComponent robot <$> seq (length (objects (state m))) (length l)).
Proof.
  induction l as [|cls rest IH]; intros r m Hall Hr.
  - exists m. simpl. rewrite !app_nil_r. destruct r. auto.
  - apply Forall_cons in Hall as [(ns & Hcls & Habs) Hrest].
    destruct (instantiate_run classes cls ns robot r m Hcls Habs Hr)
      as (m1 & Hrun1 & Hobj1 & Hrob1 & Hcalls1).
    set (n := length (objects (state m))) in *.
    assert (Hr1 : robots (state m1) !! robot = Some (add_to n r)).
    { rewrite Hrob1, list_lookup_alter_eq, Hr. reflexivity. }
    destruct (IH _ m1 Hrest Hr1) as (m' & Hrun & Hobj & Hrob & Hothers & Hcalls).
    assert (Hlen : length (objects (state m1)) = S n).
    { rewrite Hobj1, length_app. simpl. lia. }
    rewrite Hlen in Hrun, Hrob, Hcalls.
    exists m'. simpl instantiate_each.
    rewrite (bind_Return _ _ _ _ _ Hrun1), (bind_Return _ _ _ _ _ Hrun).
    split; [reflexivity|]. split; [|split; [|split]].
    + rewrite Hobj, Hobj1, <- app_assoc. reflexivity.
    + rewrite Hrob. simpl. rewrite <- app_assoc. reflexivity.
    + intros i Hne. rewrite (Hothers i Hne), Hrob1.
      apply list_lookup_alter_ne. congruence.
    + rewrite Hcalls, Hcalls1, <- app_assoc. reflexivity.
Qed.

(** X11: components constructed one after another from concrete classes are
    new, consecutive objects, each initialised with empty collections; the
    robot they were given has them registered after those it had, in the
    order of construction, by one [add_component] call each, and no other
    registry changes. *)
Theorem components_in_construction_order
    (classes : gmap string (gmap string method)) (l : list string)
    (robot : ref) (r : AdaptiveRobot) (m : machine) :
  concrete_classes classes l ->
  robots (state m) !! robot = Some r ->
  let created := seq (length (objects (state m))) (length l) in
  exists m',
    instantiate_each classes l robot m = Return created m'
    /\ (forall self, self ∈ created ->
          objects (state m) !! self = None
          /\ attrs_of m' self = Some (fresh_attrs robot))
    /\ robots (state m') !! robot
       = Some {| components := components r ++ created;
                 telemetry_publisher := telemetry_publisher r |}
    /\ (forall i, i <> robot -> robots (state m') !! i = robots (state m) !! i)
    /\ calls m' = calls m ++ (CallAddComponent robot <$> created).
Proof.
  intros Hall Hr created.
  destruct (instantiate_each_run classes robot l r m Hall Hr)
    as (m' & Hrun & Hobj & Hrob & Hothers & Hcalls).
  exists m'. split; [exact Hrun|]. split; [|auto].
  intros self Hin. apply elem_of_seq in Hin as [Hlo Hhi].
  split; [apply lookup_ge_None; lia|].
  unfold attrs_of. rewrite Hobj.
  rewrite lookup_app_r by lia.
  rewrite list_lookup_fmap.
  destruct (l !! (self - length (objects (state m)))) as [cls|] eqn:Hl;
    [reflexivity|].
  apply lookup_ge_None in Hl. lia.
Qed.

Lemma components_in_construction_order_witness :
  exists m',
    instantiate_each demo_classes ["Drive"; "Drive"]%string 0 one_component
      = Return [1; 2] m'
    /\ components <$> robots (state m') !! 0 = Some [0; 1; 2]
    /\ calls m' = [CallAddComponent 0 0; CallAddComponent 0 1; CallAddComponent 0 2].
Proof.
  destruct (components_in_construction_order demo_classes ["Drive"; "Drive"]%string 0
              {| components := [0]; telemetry_publisher := ∅ |} one_component)
    as (m' & Hrun & _ & Hreg & _ & Hcalls).
  - assert (Hd : exists ns, demo_classes !! "Drive"%string = Some ns
                            /\ __abstractmethods__ ns = ∅).
    { eexists. split; [reflexivity|].
      apply concrete_with_execute; [eexists; reflexivity|].
      apply own_abstracts_empty. intros name mth Hl.
      apply lookup_singleton_Some in Hl as [_ <-]. reflexivity. }
    repeat constructor; exact Hd.
  - reflexivity.
  - exists m'. split; [exact Hrun|]. split; [rewrite Hreg; reflexivity | exact Hcalls].
Defined.

(** *** Registrations after construction *)

Lemma same_registrations_refl m : same_registrations m m.
Proof. reflexivity. Qed.

Lemma same_registrations_trans m1 m2 m3 :
  same_registrations m1 m2 -> same_registrations m2 m3 -> same_registrations m1 m3.
Proof. unfold same_registrations. congruence. Qed.

Lemma registrations_log c : keeps same_registrations (log c).
Proof. intros m. reflexivity. Qed.

Lemma registrations_modify f :
  (forall w, components <$> robots (f w) = components <$> robots w) ->
  keeps same_registrations (modify f).
Proof. intros Hf m. apply Hf. Qed.

Ltac keeps_registrations :=
  repeat first
    [ apply (keeps_bind same_registrations same_registrations_trans); [|intros ?]
    | apply (keeps_for_each same_registrations same_registrations_refl
               same_registrations_trans); intros ?
    | apply (keeps_ret same_registrations same_registrations_refl)
    | apply (keeps_raise same_registrations same_registrations_refl)
    | apply (keeps_gets same_registrations same_registrations_refl)
    | apply registrations_log
    | apply registrations_modify; intros ?; reflexivity
    | match goal with
      | |- keeps _ (if ?b then _ else _) => destruct b
      | |- keeps _ (match ?x with _ => _ end) => destruct x
      end ].

Lemma components_put directory v i (l : list AdaptiveRobot) :
  components <$> alter (put directory v) i l = components <$> l.
Proof.
  apply list_eq. intros j. rewrite !list_lookup_fmap.
  destruct (decide (i = j)) as [->|Hne].
  - rewrite list_lookup_alter_eq. destruct (l !! j); reflexivity.
  - rewrite list_lookup_alter_ne by exact Hne. reflexivity.
Qed.

Lemma registrations_telemetry_put_value robot directory v :
  keeps same_registrations (telemetry_put_value robot directory v).
Proof.
  unfold telemetry_put_value.
  apply (keeps_bind same_registrations same_registrations_trans);
    [keeps_registrations|].
  intros [r|]; [|keeps_registrations].
  apply registrations_modify. intros w. simpl. apply components_put.
Qed.

Lemma registrations_update_from_tunables p :
  keeps same_registrations (TunablePIDController_update_from_tunables p).
Proof.
  unfold TunablePIDController_update_from_tunables, TunableValue_update.
  keeps_registrations.
Qed.

Lemma registrations_perform self op : keeps same_registrations (perform self op).
Proof.
  destruct op; simpl.
  - unfold update_tunable_constants, attrs, TunableValue_update. keeps_registrations.
  - unfold update_tunable_pids, attrs.
    keeps_registrations; try apply registrations_update_from_tunables.
  - unfold tunable, TunableValue_new, attrs. keeps_registrations.
  - unfold tunablePID, TunableValue_new, TunablePIDController_new, attrs.
    keeps_registrations.
  - unfold publish_value, attrs.
    keeps_registrations.
    apply registrations_modify. intros w. simpl. apply components_put.
  - keeps_registrations.
  - keeps_registrations.
Qed.

Lemma registrations_perform_all ops : forall m,
  same_registrations m (perform_all ops m).
Proof.
  induction ops as [|[self op] ops IH]; intros m; simpl.
  - reflexivity.
  - eapply same_registrations_trans; [apply registrations_perform | apply IH].
Qed.

(** X12: registration happens at construction only: through every history
    of operations of the base class, on any components, each registry lists
    the components it listed before, and an initialised component stays
    initialised and keeps the robot it was constructed with. *)
Theorem operations_keep_registrations (ops : list (ref * operation))
    (self : ref) (c : AdaptiveComponent) (m : machine) :
  attrs_of m self = Some c ->
  components <$> robots (state (perform_all ops m))
    = components <$> robots (state m)
  /\ exists c', attrs_of (perform_all ops m) self = Some c'
                /\ _robot c' = _robot c.
Proof.
  intros Hc. split; [apply registrations_perform_all|].
  destruct (grows_perform_all ops m self c Hc) as (c' & Hc' & Hr & _).
  eauto.
Qed.

Lemma operations_keep_registrations_witness :
  components <$> robots (state equipped) = [[0]]
  /\ exists c', attrs_of equipped 0 = Some c' /\ _robot c' = 0.
Proof.
  destruct (operations_keep_registrations
              [(0, OpTunable "Drive/speed" (VFloat 5));
               (0, OpTunablePID 1.5 0 0.25 (Some "Drive/pid"%string) None);
               (0, OpTunable "Drive/enabled" (VBool true))]
              0 {| _robot := 0; _tunables := []; _tunable_pids := [] |}
              one_component eq_refl) as [Hreg Hattrs].
  split; [exact Hreg | exact Hattrs].
Defined.

End ComponentMore.
